(** * pkms: a shallow embedding in Rocq

    Covered: hybrid retrieval (RRF fusion, grouping, keyword fallback), the
    hierarchical chunker, wikilink resolution and backlinks, the writes of
    record and chunk files, relevance scoring and the embedding matrix.
    Python dicts are modelled as association lists in insertion order (the
    iteration order of a Python 3 dict). RRF scores, which the source
    computes with Python floats, are modelled as exact rationals [Q]; the
    relevance scores and embeddings as real numbers [R]. *)

From Stdlib Require Import List String Ascii Bool ZArith QArith Lia.
From Stdlib Require Import Sorting.Sorted Permutation Reals Lra.
Import ListNotations.

(* ------------------------------------------------------------------ *)
(** ** Python helpers *)

Module Py.

(** A Python dict, iterated in insertion order. *)
Definition dict (V : Type) := list (string * V).

(** [d.get(k)] *)
Fixpoint get {V} (k : string) (d : dict V) : option V :=
  match d with
  | [] => None
  | (k', v) :: t => if String.eqb k k' then Some v else get k t
  end.

(** [d[k] = v]: an existing key keeps its position, a new key goes last. *)
Fixpoint set {V} (k : string) (v : V) (d : dict V) : dict V :=
  match d with
  | [] => [(k, v)]
  | (k', v') :: t => if String.eqb k k' then (k', v) :: t else (k', v') :: set k v t
  end.

(** [l[:n]] for a Python int [n] (a negative bound counts from the end). *)
Definition take {A} (n : Z) (l : list A) : list A :=
  if (0 <=? n)%Z then firstn (Z.to_nat n) l
  else firstn (List.length l - Z.to_nat (- n)) l.

(** [x or y] on values that are [None] or a string ([""] is falsy). *)
Definition or_str (x y : option string) : option string :=
  match x with
  | Some s => if String.eqb s "" then y else x
  | None => y
  end.

(** [s.split(":", 1)[0] if ":" in s else s] *)
Fixpoint before_colon (s : string) : string :=
  match s with
  | EmptyString => EmptyString
  | String c t => if Ascii.eqb c ":" then EmptyString else String c (before_colon t)
  end.

End Py.

(* ------------------------------------------------------------------ *)
(** ** SearchEngine (src/pkms/lib/search/search_engine_planv3.py) *)

Module Search.

Import Py.

(** A hit of [_keyword_search]. *)
Record kw_hit := {
  kw_chunk_id : string;
  kw_doc_id : string;
  kw_section : string;
  kw_chunk_index : Z;
  kw_score : Q }.

(** A hit of [_semantic_search]. *)
Record sem_hit := {
  sem_chunk_id : string;
  sem_doc_id : string;
  sem_chunk_hash : string;
  sem_score : Q }.

Inductive source := Keyword | Semantic | Hybrid.

(** A result dict of [search]. *)
Record hit := {
  h_chunk_id : string;
  h_doc_id : string;
  h_rrf_score : option Q;
  h_bm25 : option Q;
  h_semantic : option Q;
  h_source : source;
  h_section : string;
  h_chunk_index : Z }.

(** [{r["chunk_id"]: r for r in results}]: the last entry for a key wins. *)
Fixpoint dict_of {V} (key : V -> string) (l : list V) (acc : dict V) : dict V :=
  match l with
  | [] => acc
  | r :: t => dict_of key t (set (key r) r acc)
  end.

Definition kw_dict_of (l : list kw_hit) := dict_of kw_chunk_id l [].
Definition sem_dict_of (l : list sem_hit) := dict_of sem_chunk_id l [].

(** ** RRF fusion *)

(** [1.0 / (self.rrf_k + rank + 1)]; [rrf_k] is the configured
    non-negative damping constant (default 60). *)
Definition contrib (rrf_k rank : nat) : Q :=
  1 / inject_Z (Z.of_nat (rrf_k + rank + 1)).

(** [for rank, r in enumerate(results): scores[cid] = scores.get(cid, 0.0) + contrib] *)
Fixpoint add_ranked (rrf_k rank : nat) (results : list string) (scores : dict Q)
  : dict Q :=
  match results with
  | [] => scores
  | cid :: t =>
      let old := match get cid scores with Some s => s | None => 0 end in
      add_ranked rrf_k (S rank) t (set cid (old + contrib rrf_k rank) scores)
  end.

Definition rrf_scores (rrf_k : nat) (results_lists : list (list string)) : dict Q :=
  fold_left (fun sc results => add_ranked rrf_k 0 results sc) results_lists [].

(** [sorted(items, key=lambda x: x[1], reverse=True)]: a stable sort, so
    items of equal score keep their dict order. *)
Fixpoint insert_desc (x : string * Q) (l : list (string * Q)) : list (string * Q) :=
  match l with
  | [] => [x]
  | y :: t => if negb (Qle_bool (snd x) (snd y)) then x :: y :: t else y :: insert_desc x t
  end.

Fixpoint sort_desc_aux (l acc : list (string * Q)) : list (string * Q) :=
  match l with
  | [] => acc
  | x :: t => sort_desc_aux t (insert_desc x acc)
  end.

Definition sort_desc (l : list (string * Q)) := sort_desc_aux l [].

(** [_rrf_fusion(results_lists, top_k)], each result list given by its chunk ids. *)
Definition rrf_fusion (rrf_k : nat) (results_lists : list (list string)) (top_k : Z)
  : list (string * Q) :=
  take top_k (sort_desc (rrf_scores rrf_k results_lists)).

(** ** Grouping *)

Definition group_doc_id (kw_dict : dict kw_hit) (sem_dict : dict sem_hit)
  (chunk_id : string) : string :=
  let d := or_str (option_map kw_doc_id (get chunk_id kw_dict))
                  (option_map sem_doc_id (get chunk_id sem_dict)) in
  match d with
  | Some s => if String.eqb s "" then before_colon chunk_id else s
  | None => before_colon chunk_id
  end.

Fixpoint group_pairs (group_limit : nat) (kw_dict : dict kw_hit) (sem_dict : dict sem_hit)
  (fused : list (string * Q)) (groups : dict (list (string * Q)))
  : dict (list (string * Q)) :=
  match fused with
  | [] => groups
  | (cid, sc) :: t =>
      let doc := group_doc_id kw_dict sem_dict cid in
      let g := match get doc groups with Some g => g | None => [] end in
      let groups1 := match get doc groups with Some _ => groups | None => set doc [] groups end in
      let groups2 := if Nat.ltb (List.length g) group_limit then set doc (g ++ [(cid, sc)]) groups1
                     else groups1 in
      group_pairs group_limit kw_dict sem_dict t groups2
  end.

Definition make_hit (kw_dict : dict kw_hit) (sem_dict : dict sem_hit)
  (doc_id : string) (p : string * Q) : hit :=
  let (cid, sc) := p in
  let kw_meta := get cid kw_dict in
  let sem_meta := get cid sem_dict in
  let bm25 := option_map kw_score kw_meta in
  let semantic := option_map sem_score sem_meta in
  {| h_chunk_id := cid;
     h_doc_id := doc_id;
     h_rrf_score := Some sc;
     h_bm25 := bm25;
     h_semantic := semantic;
     h_source := match bm25, semantic with
                 | Some _, Some _ => Hybrid
                 | Some _, None => Keyword
                 | None, _ => Semantic
                 end;
     h_section := match kw_meta with Some m => kw_section m | None => "" end;
     h_chunk_index := match kw_meta with Some m => kw_chunk_index m | None => 0%Z end |}.

(** [_apply_grouping(fused_pairs, kw_dict, sem_dict)] *)
Definition apply_grouping (group_limit : nat) (fused : list (string * Q))
  (kw_dict : dict kw_hit) (sem_dict : dict sem_hit) : list hit :=
  flat_map (fun dg => map (make_hit kw_dict sem_dict (fst dg)) (snd dg))
           (group_pairs group_limit kw_dict sem_dict fused []).

(** ** search *)

Definition keyword_fallback (kw_results : list kw_hit) (k : Z) : list hit :=
  map (fun r => {| h_chunk_id := kw_chunk_id r;
                   h_doc_id := kw_doc_id r;
                   h_rrf_score := None;
                   h_bm25 := Some (kw_score r);
                   h_semantic := None;
                   h_source := Keyword;
                   h_section := kw_section r;
                   h_chunk_index := kw_chunk_index r |})
      (take k kw_results).

Definition search_hybrid (rrf_k group_limit : nat) (kw_results : list kw_hit)
  (sem_results : list sem_hit) (k : Z) : list hit :=
  let kw_dict := kw_dict_of kw_results in
  let sem_dict := sem_dict_of sem_results in
  let fused := rrf_fusion rrf_k [map kw_chunk_id kw_results; map sem_chunk_id sem_results]
                          (k * 5) in
  take k (apply_grouping group_limit fused kw_dict sem_dict).

(** [search(query_text, k)], given the results of the two retrieval stages;
    [semantic_ready] is [self.embed_fn is not None and self.embeddings_normed.size != 0]. *)
Definition search (rrf_k group_limit : nat) (semantic_ready : bool)
  (kw_results : list kw_hit) (sem_results : list sem_hit) (k : Z) : list hit :=
  if negb semantic_ready then keyword_fallback kw_results k
  else search_hybrid rrf_k group_limit kw_results sem_results k.

Definition count_doc (d : string) (hits : list hit) : nat :=
  List.length (filter (fun h => String.eqb (h_doc_id h) d) hits).

End Search.

(* ------------------------------------------------------------------ *)
(** ** Semantic stage (SearchEngine._semantic_search) *)

Module Semantic.

Import Py Search.

(** One index [idx] of [top_idx]: [self.chunk_hashes[idx]] looked up in
    [self.hash_to_chunkid]; an unmapped or empty chunk id is skipped. The
    indices come from [np.argsort(sims)], so they are below [N]. *)
Definition hit_of (chunk_hashes : list string) (sims : list Q)
  (hash_to_chunkid : dict string) (idx : nat) : list sem_hit :=
  let chunk_hash := nth idx chunk_hashes ""%string in
  match get chunk_hash hash_to_chunkid with
  | Some chunk_id =>
      if String.eqb chunk_id "" then []
      else [{| sem_chunk_id := chunk_id; sem_doc_id := before_colon chunk_id;
               sem_chunk_hash := chunk_hash; sem_score := nth idx sims 0 |}]
  | None => []
  end.

(** [_semantic_search(query_vec, limit)] given [sims], the cosine
    similarities of the query with the [N] stored rows, and [argsort], the
    value of [np.argsort(sims)]: the row indices in an order of
    non-decreasing similarity. [size_zero] is [self.embeddings_normed.size == 0]. *)
Definition semantic_search (size_zero : bool) (chunk_hashes : list string) (sims : list Q)
  (argsort : list nat) (hash_to_chunkid : dict string) (limit : Z) : list sem_hit :=
  if size_zero then []
  else flat_map (hit_of chunk_hashes sims hash_to_chunkid) (take limit (rev argsort)).

End Semantic.

(* ------------------------------------------------------------------ *)
(** ** HierarchicalChunker (src/.pkms/lib/chunking/hybrid.py) *)

(** Text is a list of ASCII characters; [is_space] is Python's [str.isspace]
    (also used by [\s], [strip()] and [split()]) on ASCII. *)
Module Chunker.

Definition text := list ascii.

Definition is_space (c : ascii) : bool :=
  let n := nat_of_ascii c in
  ((9 <=? n) && (n <=? 13)) || ((28 <=? n) && (n <=? 31)) || (n =? 32).

Definition is_newline (c : ascii) : bool := Ascii.eqb c "010".
Definition is_hash (c : ascii) : bool := Ascii.eqb c "#".
Definition is_sentence_end (c : ascii) : bool :=
  Ascii.eqb c "." || Ascii.eqb c "!" || Ascii.eqb c "?".

Fixpoint lstrip (s : text) : text :=
  match s with
  | c :: t => if is_space c then lstrip t else s
  | [] => []
  end.

(** [s.strip()] *)
Definition strip (s : text) : text := rev (lstrip (rev (lstrip s))).

(** [s.split()]: maximal runs of non-whitespace characters. *)
Fixpoint split_ws_aux (s cur : text) : list text :=
  match s with
  | [] => match cur with [] => [] | _ => [rev cur] end
  | c :: t =>
      if is_space c then
        match cur with [] => split_ws_aux t [] | _ => rev cur :: split_ws_aux t [] end
      else split_ws_aux t (c :: cur)
  end.

Definition split_ws (s : text) : list text := split_ws_aux s [].

(** [count_tokens] (src/.pkms/lib/utils/tokens.py), word-count branch:
    [int(len(text.split()) * 1.3)], that is [floor (13 * words / 10)]. *)
Definition count_tokens (s : text) : Z := (Z.of_nat (List.length (split_ws s)) * 13 / 10)%Z.

Fixpoint count_while (p : ascii -> bool) (s : text) : nat :=
  match s with
  | c :: t => if p c then S (count_while p t) else O
  | [] => O
  end.

Fixpoint take_while (p : ascii -> bool) (s : text) : text :=
  match s with
  | c :: t => if p c then c :: take_while p t else []
  | [] => []
  end.

(** ** Headings: [re.compile(r"^(#{1,6})\s+(.+)$", re.MULTILINE).finditer(text)] *)

(** The largest [m <= w], [m >= 1], such that [r[m]] exists and is not a newline:
    where the backtracking [\s+] stops so that [.+] can match. *)
Fixpoint back (m : nat) (r : text) : option nat :=
  match m with
  | O => None
  | S p =>
      match nth_error r m with
      | Some ch => if is_newline ch then back p r else Some m
      | None => back p r
      end
  end.

(** A match at the start of [s] (a line start): level, [group(2)] and match length.
    More than six [#] cannot match: [\s+] would face a [#]. *)
Definition match_heading (s : text) : option (nat * text * nat) :=
  let c := count_while is_hash s in
  if (c =? 0) || (6 <? c) then None
  else
    let r := skipn c s in
    let w := count_while is_space r in
    match back w r with
    | None => None
    | Some m =>
        let title := take_while (fun ch => negb (is_newline ch)) (skipn m r) in
        Some (c, title, (c + m + List.length title)%nat)
    end.

Record heading := { hd_level : nat; hd_title : text; hd_start : nat }.

(** Scan from position [pos]; [bol] tells whether [pos] is a line start. *)
Fixpoint find_headings (fuel : nat) (s : text) (pos : nat) (bol : bool) : list heading :=
  match fuel with
  | O => []
  | S f =>
      match s with
      | [] => []
      | c :: t =>
          match (if bol then match_heading s else None) with
          | Some (lvl, title, n) =>
              {| hd_level := lvl; hd_title := strip title; hd_start := pos |}
                :: find_headings f (skipn n s) (pos + n) false
          | None => find_headings f t (S pos) (is_newline c)
          end
      end
  end.

Record section := {
  sec_text : text;
  sec_section : option text;
  sec_subsection : option text }.

Fixpoint sections_of (txt : text) (hs : list heading) (h1 h2 : option text) : list section :=
  match hs with
  | [] => []
  | h :: rest =>
      let end_pos := match rest with h' :: _ => hd_start h' | [] => List.length txt end in
      let st := strip (firstn (end_pos - hd_start h) (skipn (hd_start h) txt)) in
      let '(h1', h2') :=
        if hd_level h =? 1 then (Some (hd_title h), None)
        else if hd_level h =? 2 then (h1, Some (hd_title h))
        else (h1, h2) in
      {| sec_text := st; sec_section := h1'; sec_subsection := h2' |}
        :: sections_of txt rest h1' h2'
  end.

(** [split_by_headings(text)] *)
Definition split_by_headings (txt : text) : list section :=
  match find_headings (List.length txt) txt 0 true with
  | [] => [{| sec_text := strip txt; sec_section := None; sec_subsection := None |}]
  | hs => sections_of txt hs None None
  end.

(** ** [re.split] on a pattern given by the length of its match at a position
    (0: no match), knowing the character before that position. *)
Fixpoint re_split_aux (fuel : nat) (m : option ascii -> text -> nat)
  (prev : option ascii) (s cur : text) : list text :=
  match fuel with
  | O => [rev cur ++ s]
  | S f =>
      match s with
      | [] => [rev cur]
      | c :: t =>
          match m prev s with
          | O => re_split_aux f m (Some c) t (c :: cur)
          | n => rev cur :: re_split_aux f m (Some (last (firstn n s) c)) (skipn n s) []
          end
      end
  end.

Definition re_split (m : option ascii -> text -> nat) (s : text) : list text :=
  re_split_aux (S (List.length s)) m None s [].

(** [\n\n+] *)
Definition para_sep (prev : option ascii) (s : text) : nat :=
  let k := count_while is_newline s in if 2 <=? k then k else O.

(** [(?<=[.!?])\s+] *)
Definition sentence_sep (prev : option ascii) (s : text) : nat :=
  match prev with
  | Some p => if is_sentence_end p then count_while is_space s else O
  | None => O
  end.

(** [sep.join(parts)] *)
Fixpoint join (sep : text) (parts : list text) : text :=
  match parts with
  | [] => []
  | [x] => x
  | x :: t => x ++ sep ++ join sep t
  end.

(** The packing state of [split_large_section]: flushed chunk texts,
    [current_chunk] and [current_tokens]. *)
Record pack := { pk_chunks : list text; pk_current : list text; pk_tokens : Z }.

(** One element (paragraph or sentence) entering the buffer; [sep] is the
    separator of the flush in that branch. *)
Definition push (max_tokens : Z) (sep : text) (st : pack) (piece : text) : pack :=
  let n := count_tokens piece in
  let st1 :=
    if (max_tokens <? pk_tokens st + n)%Z && negb (match pk_current st with [] => true | _ => false end)
    then
      let flushed := pk_chunks st ++ [join sep (pk_current st)] in
      if 1 <? List.length (pk_current st) then
        let l := last (pk_current st) [] in
        {| pk_chunks := flushed; pk_current := [l]; pk_tokens := count_tokens l |}
      else {| pk_chunks := flushed; pk_current := []; pk_tokens := 0 |}
    else st in
  {| pk_chunks := pk_chunks st1; pk_current := pk_current st1 ++ [piece];
     pk_tokens := pk_tokens st1 + n |}.

Definition newline2 : text := ["010"; "010"]%char.
Definition space1 : text := [" "]%char.

Definition pack_paragraph (max_tokens : Z) (st : pack) (para0 : text) : pack :=
  let para := strip para0 in
  match para with
  | [] => st
  | _ =>
      if (max_tokens <? count_tokens para)%Z then
        fold_left (push max_tokens space1) (re_split sentence_sep para) st
      else push max_tokens newline2 st para
  end.

(** [split_large_section(section)] *)
Definition split_large_section (max_tokens : Z) (sec : section) : list section :=
  if (count_tokens (sec_text sec) <=? max_tokens)%Z then [sec]
  else
    let st := fold_left (pack_paragraph max_tokens) (re_split para_sep (sec_text sec))
                {| pk_chunks := []; pk_current := []; pk_tokens := 0 |} in
    let texts := match pk_current st with
                 | [] => pk_chunks st
                 | cur => pk_chunks st ++ [join newline2 cur]
                 end in
    map (fun t => {| sec_text := t; sec_section := sec_section sec;
                     sec_subsection := sec_subsection sec |}) texts.

Record chunk_out := {
  ch_text : text;
  ch_section : option text;
  ch_subsection : option text;
  ch_tokens : Z }.

(** [HierarchicalChunker(max_tokens, min_chunk_tokens=...).chunk(text)] *)
Definition chunk (max_tokens min_chunk_tokens : Z) (txt : text) : list chunk_out :=
  let all_chunks := flat_map (split_large_section max_tokens) (split_by_headings txt) in
  flat_map (fun c =>
              let tokens := count_tokens (sec_text c) in
              if (min_chunk_tokens <=? tokens)%Z
              then [{| ch_text := sec_text c; ch_section := sec_section c;
                       ch_subsection := sec_subsection c; ch_tokens := tokens |}]
              else [])
           all_chunks.

(** [chunk_text(text, max_tokens)]: the floor keeps its default of 20. *)
Definition chunk_text (txt : text) (max_tokens : Z) : list chunk_out := chunk max_tokens 20 txt.

End Chunker.

(* ------------------------------------------------------------------ *)
(** ** chunk_document (src/.pkms/lib/chunking/hybrid.py) *)

Module ChunkDoc.

Import Chunker.

(** A chunk dict of [chunk_document], ready for NDJSON. *)
Record chunk_dict := {
  cd_doc_id : string;
  cd_chunk_id : string;
  cd_chunk_hash : string;
  cd_chunk_index : nat;
  cd_text : text;
  cd_tokens : Z;
  cd_section : option text;
  cd_subsection : option text;
  cd_modality : string;
  cd_language : string }.

Section ChunkDocument.

(** [compute_chunk_hash] (src/pkms/lib/utils/hashing.py): the first twelve
    hex digits of a content hash of the chunk text. *)
Variable compute_chunk_hash : text -> string.

Definition chunk_dict_of (doc_id language : string) (idx : nat) (c : chunk_out) : chunk_dict :=
  let chunk_hash := compute_chunk_hash (ch_text c) in
  {| cd_doc_id := doc_id;
     cd_chunk_id := (doc_id ++ ":" ++ chunk_hash)%string;
     cd_chunk_hash := chunk_hash;
     cd_chunk_index := idx;
     cd_text := ch_text c;
     cd_tokens := ch_tokens c;
     cd_section := ch_section c;
     cd_subsection := ch_subsection c;
     cd_modality := "text";
     cd_language := language |}.

(** [for idx, chunk in enumerate(chunks)], from index [idx]. *)
Fixpoint enumerate_chunks (doc_id language : string) (idx : nat) (cs : list chunk_out)
  : list chunk_dict :=
  match cs with
  | [] => []
  | c :: t => chunk_dict_of doc_id language idx c :: enumerate_chunks doc_id language (S idx) t
  end.

(** [chunk_document(doc_id, text, language, max_tokens)] *)
Definition chunk_document (doc_id : string) (txt : text) (language : string) (max_tokens : Z)
  : list chunk_dict :=
  enumerate_chunks doc_id language 0 (chunk_text txt max_tokens).

End ChunkDocument.

End ChunkDoc.

(* ------------------------------------------------------------------ *)
(** ** Wikilinks and backlinks (src/.pkms/tools/link.py) *)

Module Link.

Import Py.

Definition text := list ascii.

(** [str.lower()] on ASCII. *)
Definition lower_char (c : ascii) : ascii :=
  let n := nat_of_ascii c in
  if (65 <=? n) && (n <=? 90) then ascii_of_nat (n + 32) else c.

Definition lower (s : string) : string :=
  string_of_list_ascii (map lower_char (list_ascii_of_string s)).

(** [str.strip()] *)
Definition strip_str (s : string) : string :=
  string_of_list_ascii (Chunker.strip (list_ascii_of_string s)).

Inductive link_type := LId | LSlug | LAlias | LTitle.

(** The second component returned by [resolve_link]. *)
Inductive link_kind := KId | KSlug | KAlias | KTitle | KUnresolved.

(** [models.Link] *)
Record link := {
  l_raw : string;
  l_type : link_type;
  l_target : option string;
  l_resolved : bool;
  l_context : string }.

(** The fields of [models.Record] used here. *)
Record record := {
  r_slug : string;
  r_aliases : list string;
  r_title : string;
  r_full_text : string;
  r_links : list link;
  r_backlinks : list link }.

(** ** [extract_wikilinks]: [\[\[([^\]|]+)(?:\|([^\]]+))?\]\]] *)

Definition is_rbracket (c : ascii) : bool := Ascii.eqb c "]".
Definition is_pipe (c : ascii) : bool := Ascii.eqb c "|".

(** A match at the start of [s]: [group(1)], [group(2)] and the match length. *)
Definition match_wikilink (s : text) : option (text * option text * nat) :=
  match s with
  | "[" :: "[" :: r =>
      let g1 := Chunker.take_while (fun c => negb (is_rbracket c || is_pipe c)) r in
      match g1 with
      | [] => None
      | _ =>
          match skipn (List.length g1) r with
          | "|" :: r2 =>
              let g2 := Chunker.take_while (fun c => negb (is_rbracket c)) r2 in
              match g2, skipn (List.length g2) r2 with
              | _ :: _, "]" :: "]" :: _ =>
                  Some (g1, Some g2, (2 + List.length g1 + 1 + List.length g2 + 2)%nat)
              | _, _ => None
              end
          | "]" :: "]" :: _ => Some (g1, None, (2 + List.length g1 + 2)%nat)
          | _ => None
          end
      end
  | _ => None
  end%char.

Record wikilink := { wl_raw : string; wl_target : string; wl_display : string; wl_context : string }.

Definition is_newline (c : ascii) : bool := Ascii.eqb c "010".

(** [text[max(0, start-50):min(len(text), end+50)].replace('\n', ' ')] *)
Definition context_of (txt : text) (start end_ : nat) : string :=
  let lo := (start - 50)%nat in
  let hi := Nat.min (List.length txt) (end_ + 50)%nat in
  string_of_list_ascii
    (map (fun c => if is_newline c then " "%char else c) (firstn (hi - lo)%nat (skipn lo txt))).

Fixpoint scan_wikilinks (fuel : nat) (txt s : text) (pos : nat) : list wikilink :=
  match fuel with
  | O => []
  | S f =>
      match s with
      | [] => []
      | _ :: t =>
          match match_wikilink s with
          | Some (g1, g2, n) =>
              let target := string_of_list_ascii (Chunker.strip g1) in
              let display := match g2 with
                             | Some d => string_of_list_ascii (Chunker.strip d)
                             | None => target
                             end in
              {| wl_raw := string_of_list_ascii (firstn n s); wl_target := target;
                 wl_display := display; wl_context := context_of txt pos (pos + n)%nat |}
                :: scan_wikilinks f txt (skipn n s) (pos + n)%nat
          | None => scan_wikilinks f txt t (S pos)
          end
      end
  end.

Definition extract_wikilinks (s : string) : list wikilink :=
  let txt := list_ascii_of_string s in scan_wikilinks (List.length txt) txt txt 0.

(** ** [build_lookup_maps] *)

Record lookup := {
  lk_id : dict string;
  lk_slug : dict string;
  lk_alias : dict string;
  lk_title : dict string }.

Definition add_aliases (ulid : string) (aliases : list string) (d : dict string) : dict string :=
  fold_left (fun d a => set (lower a) ulid d) aliases d.

Definition lookup_step (lk : lookup) (ur : string * record) : lookup :=
  let (ulid, r) := ur in
  {| lk_id := set ulid ulid (lk_id lk);
     lk_slug := set (r_slug r) ulid (lk_slug lk);
     lk_alias := add_aliases ulid (r_aliases r) (lk_alias lk);
     lk_title := set (lower (r_title r)) ulid (lk_title lk) |}.

Definition build_lookup_maps (records : dict record) : lookup :=
  fold_left lookup_step records {| lk_id := []; lk_slug := []; lk_alias := []; lk_title := [] |}.

(** [resolve_link(target, lookup)] *)
Definition resolve_link (target : string) (lk : lookup) : option string * link_kind :=
  let target_clean := strip_str target in
  match get target_clean (lk_id lk) with
  | Some u => (Some u, KId)
  | None =>
      match get target_clean (lk_slug lk) with
      | Some u => (Some u, KSlug)
      | None =>
          let target_lower := lower target_clean in
          match get target_lower (lk_alias lk) with
          | Some u => (Some u, KAlias)
          | None =>
              match get target_lower (lk_title lk) with
              | Some u => (Some u, KTitle)
              | None => (None, KUnresolved)
              end
          end
      end
  end.

Definition type_of_kind (k : link_kind) : link_type :=
  match k with
  | KId => LId
  | KSlug => LSlug
  | KAlias => LAlias
  | KTitle => LTitle
  | KUnresolved => LSlug
  end.

(** The [Link(...)] built for one wikilink in [process_links]. *)
Definition link_of (lk : lookup) (wl : wikilink) : link :=
  let (target_id, kind) := resolve_link (wl_target wl) lk in
  {| l_raw := wl_raw wl;
     l_type := type_of_kind kind;
     l_target := target_id;
     l_resolved := match target_id with Some _ => true | None => false end;
     l_context := substring 0 200 (wl_context wl) |}.

(** Forward links of one record, after clearing. *)
Definition with_links (lk : lookup) (ur : string * record) : string * record :=
  let (u, r) := ur in
  (u, {| r_slug := r_slug r; r_aliases := r_aliases r; r_title := r_title r;
         r_full_text := r_full_text r;
         r_links := map (link_of lk) (extract_wikilinks (r_full_text r));
         r_backlinks := [] |}).

Definition add_backlink_to (bl : link) (r : record) : record :=
  {| r_slug := r_slug r; r_aliases := r_aliases r; r_title := r_title r;
     r_full_text := r_full_text r; r_links := r_links r;
     r_backlinks := r_backlinks r ++ [bl] |}.

(** [if link.resolved and link.target: ... target_record.backlinks.append(backlink)] *)
Definition add_backlink (source_id : string) (records : dict record) (l : link) : dict record :=
  match l_target l with
  | Some t =>
      if l_resolved l && negb (String.eqb t "") then
        match get t records with
        | Some tr =>
            set t (add_backlink_to
                     {| l_raw := l_raw l; l_type := l_type l; l_target := Some source_id;
                        l_resolved := true; l_context := l_context l |} tr) records
        | None => records
        end
      else records
  | None => records
  end.

Definition add_backlinks_of (records : dict record) (item : string * list link) : dict record :=
  fold_left (add_backlink (fst item)) (snd item) records.

(** [process_links(records)]: the updated records, [total_links] and [broken_links]. *)
Definition process_links (records : dict record) : dict record * nat * nat :=
  let lk := build_lookup_maps records in
  let recs1 := map (with_links lk) records in
  let all_links := flat_map (fun ur => r_links (snd ur)) recs1 in
  let recs2 := fold_left add_backlinks_of (map (fun ur => (fst ur, r_links (snd ur))) recs1) recs1 in
  (recs2, List.length all_links,
   List.length (filter (fun l => negb (l_resolved l)) all_links)).

End Link.

(* ------------------------------------------------------------------ *)
(** ** Concrete search inputs *)

Module SearchInputs.

Import Search.
Local Open Scope string_scope.

Definition kw (c d : string) (s : Q) : kw_hit :=
  {| kw_chunk_id := c; kw_doc_id := d; kw_section := ""; kw_chunk_index := 0; kw_score := s |}.

Definition sem (c d : string) (s : Q) : sem_hit :=
  {| sem_chunk_id := c; sem_doc_id := d; sem_chunk_hash := ""; sem_score := s |}.

(** Four BM25 hits, all from document [D]. *)
Definition one_doc_kw : list kw_hit :=
  [kw "D:1" "D" 4; kw "D:2" "D" 3; kw "D:3" "D" 2; kw "D:4" "D" 1].

(** Document [A] ranks first and third, document [B] second. *)
Definition interleaved_kw : list kw_hit := [kw "A:1" "A" 3; kw "B:1" "B" 2; kw "A:2" "A" 1].
Definition interleaved_sem : list sem_hit := [sem "A:1" "A" 1].

(** Two chunks with equal fused score. *)
Definition tie_kw : list kw_hit := [kw "y" "B" 1].
Definition tie_sem : list sem_hit := [sem "x" "A" 1].

(** Ten BM25 hits of document [A] ahead of one hit of document [B]. *)
Definition crowded_kw : list kw_hit :=
  app (map (fun c => kw c "A" 1) ["A:0"; "A:1"; "A:2"; "A:3"; "A:4"; "A:5"; "A:6"; "A:7"; "A:8"; "A:9"])
      [kw "B:0" "B" 1].
Definition crowded_sem : list sem_hit := [sem "A:0" "A" 1].

End SearchInputs.

(* ------------------------------------------------------------------ *)
(** ** Concrete chunker inputs (src/tests/test_chunking.py) *)

Module ChunkerInputs.

(** [test_chunk_simple_text] *)
Definition simple_text : Chunker.text :=
  list_ascii_of_string "This is a simple text without headings.".

(** [test_chunk_document_returns_proper_format] *)
Definition short_text : Chunker.text := list_ascii_of_string "Test content".

End ChunkerInputs.

(* ------------------------------------------------------------------ *)
(** ** Concrete record sets *)

Module LinkInputs.

Import Link.
Local Open Scope string_scope.

Definition mk (slug : string) (aliases : list string) (title full_text : string) : record :=
  {| r_slug := slug; r_aliases := aliases; r_title := title; r_full_text := full_text;
     r_links := []; r_backlinks := [] |}.

Definition ulid_a := "01ARZ3NDEKTSV4RRFFQ69G5FAV".
Definition ulid_b := "01ARZ3NDEKTSV4RRFFQ69G5FAW".
Definition ulid_c := "01ARZ3NDEKTSV4RRFFQ69G5FAX".

(** Document A links twice to document B (slug [b]). *)
Definition twice : Py.dict record :=
  [(ulid_a, mk "a" [] "Alpha" "See [[b]] and again [[b]].");
   (ulid_b, mk "b" [] "Beta" "No links here.")].

(** A links to B by id, by slug and by alias, and to a missing document. *)
Definition three_tiers : Py.dict record :=
  [(ulid_a, mk "alpha" ["First"] "Alpha Note"
              "[[01ARZ3NDEKTSV4RRFFQ69G5FAW]] [[beta]] [[SECOND]] [[nowhere]]");
   (ulid_b, mk "beta" ["Second"] "Beta Note" "");
   (ulid_c, mk "gamma" [] "Gamma Note" "")].

(** The same records, with one more link of A that only a title matches. *)
Definition title_tier : Py.dict record :=
  [(ulid_a, mk "alpha" ["First"] "Alpha Note"
              "[[01ARZ3NDEKTSV4RRFFQ69G5FAW]] [[beta]] [[SECOND]] [[nowhere]] [[gamma NOTE]]");
   (ulid_b, mk "beta" ["Second"] "Beta Note" "");
   (ulid_c, mk "gamma" [] "Gamma Note" "")].

End LinkInputs.

(* ------------------------------------------------------------------ *)
(** ** Validation of [Link(...)] (src/pkms/models/link.py) in [process_links] *)

Module LinkValidation.

Import Py Link.

(** [[0-9A-HJKMNP-TV-Z]]: the Crockford base-32 digits. *)
Definition is_crockford (c : ascii) : bool :=
  let n := nat_of_ascii c in
  ((48 <=? n) && (n <=? 57)) || ((65 <=? n) && (n <=? 72)) || (n =? 74) || (n =? 75) ||
  (n =? 77) || (n =? 78) || ((80 <=? n) && (n <=? 84)) || ((86 <=? n) && (n <=? 90)).

(** [pattern=r"^[0-9A-HJKMNP-TV-Z]{26}$"] *)
Definition is_ulid (s : string) : bool :=
  (String.length s =? 26) && forallb is_crockford (list_ascii_of_string s).

(** [type: Literal["slug", "id", "alias"]] *)
Definition type_allowed (t : link_type) : bool :=
  match t with LId | LSlug | LAlias => true | LTitle => false end.

(** The field constraints of [models.Link]: the type literal, the ULID
    pattern on a non-null [target] and [max_length=200] on [context];
    [Link(...)] raises [ValidationError] when one fails. *)
Definition link_valid (l : link) : bool :=
  type_allowed (l_type l) &&
  match l_target l with Some t => is_ulid t | None => true end &&
  (String.length (l_context l) <=? 200).

(** [add_backlink] with the [Link(...)] of the backlink validated; [None]
    where it raises. *)
Definition add_backlink_v (source_id : string) (records : dict record) (l : link)
  : option (dict record) :=
  match l_target l with
  | Some t =>
      if l_resolved l && negb (String.eqb t "") then
        match get t records with
        | Some tr =>
            let bl := {| l_raw := l_raw l; l_type := l_type l; l_target := Some source_id;
                         l_resolved := true; l_context := l_context l |} in
            if link_valid bl then Some (set t (add_backlink_to bl tr) records) else None
        | None => Some records
        end
      else Some records
  | None => Some records
  end.

Definition add_backlinks_of_v (records : option (dict record)) (item : string * list link)
  : option (dict record) :=
  fold_left (fun acc l => match acc with
                          | Some rs => add_backlink_v (fst item) rs l
                          | None => None
                          end) (snd item) records.

(** [process_links(records)] with every [Link(...)] validated: [None] where
    it raises [ValidationError]. All forward links are built (first loop)
    before any backlink (second loop). *)
Definition process_links_v (records : dict record) : option (dict record * nat * nat) :=
  let lk := build_lookup_maps records in
  let recs1 := map (with_links lk) records in
  let all_links := flat_map (fun ur => r_links (snd ur)) recs1 in
  if forallb link_valid all_links then
    match fold_left add_backlinks_of_v (map (fun ur => (fst ur, r_links (snd ur))) recs1)
                    (Some recs1) with
    | Some recs2 =>
        Some (recs2, List.length all_links,
              List.length (filter (fun l => negb (l_resolved l)) all_links))
    | None => None
    end
  else None.

End LinkValidation.

(* ------------------------------------------------------------------ *)
(** ** Record and chunk files (src/pkms/lib/records_io.py, src/.pkms/tools/chunk.py) *)

Module RecordsIO.

Import Py.

(** File contents, and the directory tree as a map from path to contents. *)
Definition contents := list ascii.
Definition fs := dict contents.

(** The file operations reaching the operating system. *)
Inductive op :=
  | OpenW (path : string)                 (* open(path, "w"): create or truncate *)
  | WriteS (path : string) (d : contents) (* a flush of the write buffer *)
  | Close (path : string).

Definition op_path (o : op) : string :=
  match o with OpenW p | WriteS p _ | Close p => p end.

Definition step (s : fs) (o : op) : fs :=
  match o with
  | OpenW p => set p [] s
  | WriteS p d => set p (match get p s with Some c => c | None => [] end ++ d)%list s
  | Close _ => s
  end.

(** The states a concurrent reader can observe, one after each operation. *)
Fixpoint run (s : fs) (ops : list op) : list fs :=
  match ops with
  | [] => []
  | o :: t => let s' := step s o in s' :: run s' t
  end.

(** [with open(path, "w") as f: ...], the buffered writes reaching the file
    as the flushes [flushes]; their concatenation is the text written. *)
Definition with_open_w (path : string) (flushes : list contents) : list op :=
  OpenW path :: (map (WriteS path) flushes ++ [Close path])%list.

Definition record_path (records_dir id : string) : string :=
  (records_dir ++ "/" ++ id ++ ".json")%string.

Definition chunks_path (chunks_dir doc_id : string) : string :=
  (chunks_dir ++ "/" ++ doc_id ++ ".ndjson")%string.

(** [save_record]: [json.dump(record_json, f, indent=2, ...)] into
    [open(out_path, "w")]; the directory creation is not modelled. *)
Definition save_record_ops (records_dir id : string) (flushes : list contents) : list op :=
  with_open_w (record_path records_dir id) flushes.

(** [save_chunks]: one [json.dump(chunk, f)] and [f.write("\n")] per chunk
    into [open(out_path, "w")]. *)
Definition save_chunks_ops (chunks_dir doc_id : string) (flushes : list contents) : list op :=
  with_open_w (chunks_path chunks_dir doc_id) flushes.

End RecordsIO.

Module RecordsIOInputs.

Import RecordsIO.
Local Open Scope string_scope.

Definition old_record : contents := list_ascii_of_string "{ id: 01A, title: Old }".
Definition new_record_flushes : list contents :=
  [list_ascii_of_string "{ id: 01A, "; list_ascii_of_string "title: New }"].
Definition line (s : string) : contents := (list_ascii_of_string s ++ ["010"%char])%list.
Definition old_chunks : contents := line "{ chunk: old }".
Definition new_chunks_flushes : list contents := [line "{ chunk: 1 }"; line "{ chunk: 2 }"].
Definition disk0 : fs :=
  [("data/metadata/01A.json", old_record); ("data/chunks/01A.ndjson", old_chunks)].

End RecordsIOInputs.

(* ------------------------------------------------------------------ *)
(** ** [save_record], [save_records] and [load_record] (src/pkms/lib/records_io.py)
    over the file-system model of [RecordsIO] *)

Module RecordsSave.

Import Py RecordsIO.

Section Save.

Context {A : Type}.

(** [record.id] *)
Variable rec_id : A -> string.

(** The flushes of [json.dump(record.model_dump(mode="json", exclude_none=True), f, ...)]. *)
Variable dump : A -> list contents.

(** [json.load(f)] followed by [Record] on the loaded data; [None] where either raises. *)
Variable parse : contents -> option A.

(** [save_record]: the file is named after [record.id]. *)
Definition save_record (record : A) (records_dir : string) : list op :=
  save_record_ops records_dir (rec_id record) (dump record).

(** [save_records]: all records in dict order, or the ids of [only_ids]
    (a set, iterated in some order) that are keys of [records]. *)
Definition save_records (records : dict A) (records_dir : string) (only_ids : option (list string)) : list op :=
  match only_ids with
  | None => flat_map (fun '(ulid, record) => save_record record records_dir) records
  | Some ids =>
      flat_map (fun ulid => match get ulid records with
                            | Some record => save_record record records_dir
                            | None => []
                            end) ids
  end.

(** [load_record]: [None] for a missing file or one that fails to load. *)
Definition load_record (record_id : string) (records_dir : string) (s : fs) : option A :=
  match get (record_path records_dir record_id) s with
  | None => None
  | Some c => parse c
  end.

End Save.

End RecordsSave.

(* ------------------------------------------------------------------ *)
(** ** Relevance scoring (src/.pkms/tools/relevance.py) *)

Module Relevance.

Local Open Scope R_scope.

(** Python's [min(a, b)] and [max(a, b)]: the first argument unless the
    second is strictly smaller (larger). *)
Definition py_min (a b : R) : R := if Rlt_dec b a then b else a.
Definition py_max (a b : R) : R := if Rlt_dec a b then b else a.

(** [max(0.0, min(1.0, x))] *)
Definition clamp01 (x : R) : R := py_max 0 (py_min 1 x).

(** The largest finite double; [math.exp(x)] raises [OverflowError] when
    its value exceeds it. *)
Definition max_float : R := (2 - / 2 ^ 52) * 2 ^ 1023.

(** The fields of [Record] read by the scorer; timestamps are seconds since
    the epoch, after the time-zone normalisation of the source. *)
Record record := {
  updated : R;
  full_text : Chunker.text;
  links : list Link.link;
  backlinks : list Link.link;
  human_edited : option bool;        (* status.human_edited *)
  agent_reviewed : option bool }.    (* agent.reviewed, None without agent *)

Section Scoring.

(** The values read from [config.toml]. *)
Variables WEIGHT_RECENCY WEIGHT_LINKS WEIGHT_QUALITY WEIGHT_USER : R.
Variable RECENCY_HALF_LIFE_DAYS : R.

(** [compute_recency_score]; [None] where the source raises
    ([ZeroDivisionError] for a zero half-life, [OverflowError] in
    [math.exp]). *)
Definition compute_recency_score (r : record) (now : R) : option R :=
  let age_seconds := now - updated r in
  let age_days := age_seconds / 86400 in
  if Req_dec_T RECENCY_HALF_LIFE_DAYS 0 then None
  else
    let x := - age_days / RECENCY_HALF_LIFE_DAYS in
    if Rlt_dec max_float (exp x) then None
    else Some (clamp01 (exp x)).

(** [compute_link_score] with [MAX_BACKLINKS = 100]. *)
Definition compute_link_score (r : record) : R :=
  let backlink_count := List.length (backlinks r) in
  if Nat.eqb backlink_count 0 then 0
  else clamp01 (ln (1 + INR backlink_count) / ln (1 + 100)).

(** [compute_quality_score] *)
Definition compute_quality_score (r : record) : R :=
  let word_count := List.length (Chunker.split_ws (full_text r)) in
  let link_count := List.length (links r) in
  let word_score := py_min 1 (INR word_count / 2000) in
  let link_score := if Nat.ltb 0 link_count then 1 else 0 in
  let media_score := 0.5 in
  clamp01 (0.5 * word_score + 0.3 * link_score + 0.2 * media_score).

(** [compute_user_score] *)
Definition compute_user_score (r : record) : R :=
  let s1 := match human_edited r with Some true => 0 + 0.5 | _ => 0 end in
  let s2 := match agent_reviewed r with Some true => s1 + 0.3 | _ => s1 end in
  clamp01 s2.

(** [compute_relevance_score] *)
Definition compute_relevance_score (r : record) (now : R) : option R :=
  match compute_recency_score r now with
  | None => None
  | Some recency =>
      let links := compute_link_score r in
      let quality := compute_quality_score r in
      let user := compute_user_score r in
      let relevance :=
        WEIGHT_RECENCY * recency + WEIGHT_LINKS * links +
        WEIGHT_QUALITY * quality + WEIGHT_USER * user in
      Some (clamp01 relevance)
  end.

End Scoring.

End Relevance.

(* ------------------------------------------------------------------ *)
(** ** Embedding matrix and cosine similarity
    (src/pkms/lib/search/search_engine_planv3.py), float32 arithmetic
    idealised as real arithmetic *)

Module Embeddings.

Local Open Scope R_scope.

(** What [np.load] yields for one [.npy] file. *)
Inductive npy :=
  | Npy1 (v : list R)   (* a 1-D array *)
  | NpyOther            (* an array with [vec.ndim != 1]: skipped *)
  | NpyError.           (* [np.load] raises: skipped *)

Fixpoint sumsq (v : list R) : R :=
  match v with [] => 0 | x :: t => x * x + sumsq t end.

(** [np.linalg.norm] of a vector. *)
Definition norm (v : list R) : R := sqrt (sumsq v).

Definition dot (u v : list R) : R := fold_right Rplus 0 (map (fun p => fst p * snd p) (combine u v)).

(** The [(chunk_hash, vec)] pairs kept by the loop over the [.npy] files. *)
Definition loaded (files : list (string * npy)) : list (string * list R) :=
  flat_map (fun f => match snd f with Npy1 v => [(fst f, v)] | _ => [] end) files.

(** [norms[norms == 0] = 1.0; mat / norms] on one row. *)
Definition normalize_row (v : list R) : list R :=
  let n := norm v in
  let n' := if Req_dec_T n 0 then 1 else n in
  map (fun x => x / n') v.

(** [_load_chunk_embeddings]: [None] where [np.stack] raises on rows of
    different lengths. *)
Definition load_chunk_embeddings (files : list (string * npy)) : option (list string * list (list R)) :=
  let kept := loaded files in
  match kept with
  | [] => Some ([], [])
  | (_, v0) :: _ =>
      if forallb (fun p => Nat.eqb (List.length (snd p)) (List.length v0)) kept
      then Some (map fst kept, map (fun p => normalize_row (snd p)) kept)
      else None
  end.

(** [doc_mat_normed.size] *)
Definition size (mat : list (list R)) : nat :=
  fold_right (fun row n => (List.length row + n)%nat) 0%nat mat.

(** [_cosine_similarity]: [None] where the product [doc_mat_normed @ q_normed]
    raises on a dimension mismatch. *)
Definition cosine_similarity (query_vec : list R) (doc_mat_normed : list (list R)) : option (list R) :=
  if Nat.eqb (size doc_mat_normed) 0 then Some []
  else
    let q_norm := norm query_vec in
    if Req_dec_T q_norm 0 then Some (repeat 0 (List.length doc_mat_normed))
    else
      let q_normed := map (fun x => x / q_norm) query_vec in
      if forallb (fun row => Nat.eqb (List.length row) (List.length q_normed)) doc_mat_normed
      then Some (map (fun row => dot row q_normed) doc_mat_normed)
      else None.

End Embeddings.

(* ================================================================== *)
(** * Properties *)

(** ** Dict lemmas *)

Module PyFacts.

Import Py.

Lemma get_set_same {V} k (v : V) d : get k (set k v d) = Some v.
Proof.
  induction d as [|[k' v'] t IH]; simpl.
  - rewrite String.eqb_refl; reflexivity.
  - destruct (String.eqb k k') eqn:E; simpl; rewrite E; [reflexivity | exact IH].
Qed.

Lemma get_set_other {V} k k' (v : V) d : k <> k' -> get k' (set k v d) = get k' d.
Proof.
  intros Hne; induction d as [|[k0 v0] t IH]; simpl.
  - destruct (String.eqb_spec k' k); [congruence | reflexivity].
  - destruct (String.eqb_spec k k0) as [->|Hk]; simpl.
    + destruct (String.eqb_spec k' k0); [congruence | reflexivity].
    + destruct (String.eqb k' k0); [reflexivity | exact IH].
Qed.

Lemma In_set {V} k (v : V) d p : In p (set k v d) -> p = (k, v) \/ In p d.
Proof.
  induction d as [|[k0 v0] t IH]; simpl.
  - intros [<-|[]]; left; reflexivity.
  - destruct (String.eqb_spec k k0) as [->|_]; simpl.
    + intros [<-|H]; [left; reflexivity | right; right; exact H].
    + intros [<-|H]; [right; left; reflexivity|].
      destruct (IH H); [left | right; right]; assumption.
Qed.

Lemma get_In {V} k (v : V) d : get k d = Some v -> In (k, v) d.
Proof.
  induction d as [|[k0 v0] t IH]; simpl; [discriminate|].
  destruct (String.eqb_spec k k0) as [->|_].
  - intros [= ->]; left; reflexivity.
  - intros H; right; exact (IH H).
Qed.

Lemma keys_set {V} k (v : V) d x : In x (map fst (set k v d)) <-> x = k \/ In x (map fst d).
Proof.
  induction d as [|[k0 v0] t IH]; simpl.
  - split; [intros [<-|[]]; left; reflexivity | intros [->|[]]; left; reflexivity].
  - destruct (String.eqb_spec k k0) as [->|_]; simpl.
    + split; [intros [<-|H]; auto | intros [->|[<-|H]]; auto].
    + rewrite IH; tauto.
Qed.

Lemma NoDup_keys_set {V} k (v : V) d :
  NoDup (map fst d) -> NoDup (map fst (set k v d)).
Proof.
  induction d as [|[k0 v0] t IH]; simpl; intros Hnd.
  - constructor; [intros []|constructor].
  - inversion Hnd as [|? ? Hnin Hnd']; subst.
    destruct (String.eqb_spec k k0) as [->|Hk]; simpl.
    + constructor; assumption.
    + constructor; [|exact (IH Hnd')].
      rewrite keys_set; intros [->|H]; [congruence | contradiction].
Qed.

Lemma get_None_notin {V} k (d : dict V) : get k d = None -> ~ In k (map fst d).
Proof.
  induction d as [|[k0 v0] t IH]; simpl; [tauto|].
  destruct (String.eqb_spec k k0) as [->|Hk]; [discriminate|].
  intros H [->|H']; [congruence | exact (IH H H')].
Qed.

Lemma notin_get_None {V} k (d : dict V) : ~ In k (map fst d) -> get k d = None.
Proof.
  induction d as [|[k0 v0] t IH]; simpl; [reflexivity|].
  destruct (String.eqb_spec k k0) as [->|Hk]; [tauto|].
  intros H; apply IH; tauto.
Qed.

Lemma take_firstn {A} (n : Z) (l : list A) : exists m, take n l = firstn m l.
Proof. unfold take; destruct (0 <=? n)%Z; eexists; reflexivity. Qed.

Lemma In_firstn_In {A} m (l : list A) x : In x (firstn m l) -> In x l.
Proof. rewrite <- (firstn_skipn m l) at 2; intros H; apply in_or_app; left; exact H. Qed.

Lemma ForallOrdPairs_app {A} (R : A -> A -> Prop) l1 l2 :
  ForallOrdPairs R l1 -> ForallOrdPairs R l2 ->
  (forall a b, In a l1 -> In b l2 -> R a b) -> ForallOrdPairs R (l1 ++ l2).
Proof.
  induction l1 as [|a t IH]; simpl; intros H1 H2 Hx; [exact H2|].
  inversion H1 as [|? ? Ha Ht]; subst.
  constructor.
  - apply Forall_app; split; [exact Ha|].
    apply Forall_forall; intros b Hb; apply Hx; [left; reflexivity | exact Hb].
  - apply IH; [exact Ht | exact H2 |].
    intros a' b Ha' Hb; apply Hx; [right; exact Ha' | exact Hb].
Qed.

Lemma ForallOrdPairs_firstn {A} (R : A -> A -> Prop) m l :
  ForallOrdPairs R l -> ForallOrdPairs R (firstn m l).
Proof.
  revert l; induction m as [|m IH]; intros [|a t] H; simpl; try constructor.
  - inversion H as [|? ? Ha Ht]; subst.
    apply Forall_forall; intros b Hb.
    exact (proj1 (Forall_forall _ _) Ha b (In_firstn_In _ _ _ Hb)).
  - inversion H; subst; apply IH; assumption.
Qed.

Lemma ForallOrdPairs_nth {A} (R : A -> A -> Prop) l i j a b :
  ForallOrdPairs R l -> (i < j)%nat ->
  nth_error l i = Some a -> nth_error l j = Some b -> R a b.
Proof.
  intros H; revert i j; induction H as [|x t Hx Ht IH]; intros i j Hij Hi Hj.
  - destruct i; discriminate.
  - destruct j as [|j]; [lia|].
    destruct i as [|i]; simpl in Hi, Hj.
    + injection Hi as <-.
      exact (proj1 (Forall_forall _ _) Hx b (nth_error_In _ _ Hj)).
    + apply (IH i j); [lia | exact Hi | exact Hj].
Qed.

Lemma StronglySorted_firstn {A} (R : A -> A -> Prop) m l :
  StronglySorted R l -> StronglySorted R (firstn m l).
Proof.
  revert l; induction m as [|m IH]; intros [|a t] H; simpl; try constructor.
  - inversion H as [|? ? Ht Ha]; subst; apply IH; exact Ht.
  - inversion H as [|? ? Ht Ha]; subst.
    apply Forall_forall; intros b Hb.
    exact (proj1 (Forall_forall _ _) Ha b (In_firstn_In _ _ _ Hb)).
Qed.

Lemma StronglySorted_snoc {A} (R : A -> A -> Prop) l x :
  StronglySorted R l -> Forall (fun a => R a x) l -> StronglySorted R (l ++ [x]).
Proof.
  induction l as [|a t IH]; simpl; intros Hs Hx.
  - constructor; constructor.
  - inversion Hs as [|? ? Ht Ha]; subst; inversion Hx as [|? ? Hax Htx]; subst.
    constructor; [exact (IH Ht Htx)|].
    apply Forall_app; split; [exact Ha | constructor; [exact Hax | constructor]].
Qed.

Lemma StronglySorted_after {A} (R : A -> A -> Prop) pre a post :
  StronglySorted R (pre ++ a :: post) -> Forall (R a) post.
Proof.
  induction pre as [|b t IH]; simpl; intros H.
  - inversion H; assumption.
  - inversion H; subst; apply IH; assumption.
Qed.

End PyFacts.

(** ** Search engine lemmas *)

Module SearchFacts.

Import Py PyFacts Search.

(** [b] comes no earlier than [a] in a score-descending list. *)
Definition desc (a b : string * Q) : Prop := snd b <= snd a.

Lemma In_insert_desc x l z : In z (insert_desc x l) <-> z = x \/ In z l.
Proof.
  induction l as [|y t IH]; simpl.
  - split; [intros [<-|[]]; auto | intros [->|[]]; auto].
  - destruct (negb (Qle_bool (snd x) (snd y))); simpl.
    + split; [intros [<-|[<-|H]]; auto | intros [->|[<-|H]]; auto].
    + rewrite IH; split; [intros [<-|[->|H]]; auto | intros [->|[<-|H]]; auto].
Qed.

Lemma insert_desc_sorted x l : StronglySorted desc l -> StronglySorted desc (insert_desc x l).
Proof.
  induction l as [|y t IH]; simpl; intros Hs.
  - constructor; constructor.
  - inversion Hs as [|? ? Ht Hy]; subst.
    destruct (Qle_bool (snd x) (snd y)) eqn:E; simpl.
    + apply Qle_bool_iff in E.
      constructor; [exact (IH Ht)|].
      apply Forall_forall; intros z Hz; apply In_insert_desc in Hz as [->|Hz].
      * exact E.
      * exact (proj1 (Forall_forall _ _) Hy z Hz).
    + assert (Hlt : snd y < snd x).
      { apply Qnot_le_lt; intros Hle; apply Qle_bool_iff in Hle; congruence. }
      constructor; [exact Hs|].
      constructor; [exact (Qlt_le_weak _ _ Hlt)|].
      apply Forall_forall; intros z Hz.
      unfold desc; apply Qle_trans with (snd y);
        [exact (proj1 (Forall_forall _ _) Hy z Hz) | exact (Qlt_le_weak _ _ Hlt)].
Qed.

Lemma sort_desc_aux_sorted l acc :
  StronglySorted desc acc -> StronglySorted desc (sort_desc_aux l acc).
Proof.
  revert acc; induction l as [|x t IH]; simpl; intros acc H; [exact H|].
  apply IH, insert_desc_sorted, H.
Qed.

Lemma sort_desc_sorted l : StronglySorted desc (sort_desc l).
Proof. apply sort_desc_aux_sorted; constructor. Qed.

Lemma In_sort_desc_aux l acc z : In z (sort_desc_aux l acc) <-> In z l \/ In z acc.
Proof.
  revert acc; induction l as [|x t IH]; simpl; intros acc; [tauto|].
  rewrite IH, In_insert_desc; split; [intros [H|[->|H]]; auto | intros [[<-|H]|H]; auto].
Qed.

Lemma In_sort_desc l z : In z (sort_desc l) <-> In z l.
Proof. unfold sort_desc; rewrite In_sort_desc_aux; simpl; tauto. Qed.

Lemma rrf_fusion_sorted rrf_k lists top_k : StronglySorted desc (rrf_fusion rrf_k lists top_k).
Proof.
  unfold rrf_fusion; destruct (take_firstn top_k (sort_desc (rrf_scores rrf_k lists))) as [m ->].
  apply StronglySorted_firstn, sort_desc_sorted.
Qed.

(** *** Grouping invariants *)

Lemma make_hit_doc kw sem doc p : h_doc_id (make_hit kw sem doc p) = doc.
Proof. destruct p; reflexivity. Qed.

Lemma make_hit_chunk kw sem doc p : h_chunk_id (make_hit kw sem doc p) = fst p.
Proof. destruct p; reflexivity. Qed.

Lemma make_hit_score kw sem doc p : h_rrf_score (make_hit kw sem doc p) = Some (snd p).
Proof. destruct p; reflexivity. Qed.

Definition groups_ok (gl : nat) (groups : dict (list (string * Q))) : Prop :=
  NoDup (map fst groups) /\ Forall (fun dg => (List.length (snd dg) <= gl)%nat) groups.

Lemma group_pairs_ok gl kw sem fused groups :
  groups_ok gl groups -> groups_ok gl (group_pairs gl kw sem fused groups).
Proof.
  revert groups; induction fused as [|[cid sc] t IH]; simpl; intros groups [Hnd Hlen];
    [split; assumption|].
  apply IH.
  set (doc := group_doc_id kw sem cid).
  assert (H1 : groups_ok gl (match get doc groups with Some _ => groups
                                | None => set doc [] groups end)).
  { destruct (get doc groups); [split; assumption|].
    split; [apply NoDup_keys_set, Hnd|].
    apply Forall_forall; intros p Hp; apply In_set in Hp as [->|Hp]; simpl; [lia|].
    exact (proj1 (Forall_forall _ _) Hlen p Hp). }
  destruct (Nat.ltb_spec (List.length (match get doc groups with Some g => g | None => [] end)) gl)
    as [Hlt|_]; [|exact H1].
  destruct H1 as [Hnd1 Hlen1]; split; [apply NoDup_keys_set, Hnd1|].
  apply Forall_forall; intros p Hp; apply In_set in Hp as [->|Hp]; simpl.
  - rewrite length_app; simpl; lia.
  - exact (proj1 (Forall_forall _ _) Hlen1 p Hp).
Qed.

Definition flatten_groups (kw : dict kw_hit) (sem : dict sem_hit)
  (groups : dict (list (string * Q))) : list hit :=
  flat_map (fun dg => map (make_hit kw sem (fst dg)) (snd dg)) groups.

Lemma In_flatten_doc kw sem groups h :
  In h (flatten_groups kw sem groups) -> In (h_doc_id h) (map fst groups).
Proof.
  unfold flatten_groups; rewrite in_flat_map; intros [[d g] [Hin Hh]].
  apply in_map_iff in Hh as [p [<- _]]; rewrite make_hit_doc.
  exact (in_map fst _ _ Hin).
Qed.

Lemma count_doc_app d l1 l2 : count_doc d (l1 ++ l2) = (count_doc d l1 + count_doc d l2)%nat.
Proof. unfold count_doc; rewrite filter_app, length_app; reflexivity. Qed.

Lemma count_doc_firstn d m l : (count_doc d (firstn m l) <= count_doc d l)%nat.
Proof. rewrite <- (firstn_skipn m l) at 2; rewrite count_doc_app; lia. Qed.

Lemma count_doc_block kw sem d doc g :
  count_doc d (map (make_hit kw sem doc) g) = if String.eqb doc d then List.length g else 0%nat.
Proof.
  induction g as [|p t IH]; simpl; [destruct (String.eqb doc d); reflexivity|].
  unfold count_doc in *; simpl; rewrite make_hit_doc.
  destruct (String.eqb doc d); simpl; rewrite IH; reflexivity.
Qed.

Lemma count_doc_notin d l : ~ In d (map h_doc_id l) -> count_doc d l = 0%nat.
Proof.
  induction l as [|h t IH]; simpl; intros H; [reflexivity|].
  unfold count_doc in *; simpl.
  destruct (String.eqb_spec (h_doc_id h) d) as [E|_]; [tauto|].
  apply IH; tauto.
Qed.

Lemma count_doc_flatten kw sem groups d :
  NoDup (map fst groups) ->
  count_doc d (flatten_groups kw sem groups) =
  match get d groups with Some g => List.length g | None => 0%nat end.
Proof.
  induction groups as [|[doc g] t IH]; simpl; intros Hnd; [reflexivity|].
  inversion Hnd as [|? ? Hnin Hnd']; subst.
  fold (flatten_groups kw sem t).
  rewrite count_doc_app, count_doc_block, IH by exact Hnd'.
  destruct (String.eqb_spec d doc) as [->|Hne].
  - rewrite String.eqb_refl, (notin_get_None doc t Hnin); lia.
  - destruct (String.eqb_spec doc d); [congruence|reflexivity].
Qed.

Lemma apply_grouping_bound gl fused kw sem d :
  (count_doc d (apply_grouping gl fused kw sem) <= gl)%nat.
Proof.
  destruct (group_pairs_ok gl kw sem fused []) as [Hnd Hlen]; [split; constructor|].
  unfold apply_grouping; fold (flatten_groups kw sem (group_pairs gl kw sem fused [])).
  rewrite count_doc_flatten by exact Hnd.
  destruct (get d _) as [g|] eqn:E; [|lia].
  exact (proj1 (Forall_forall _ _) Hlen (d, g) (get_In _ _ _ E)).
Qed.

(** In hybrid mode no document has more than [group_limit] hits. *)
Lemma search_hybrid_group_bound rrf_k gl kw sem k d :
  (count_doc d (search_hybrid rrf_k gl kw sem k) <= gl)%nat.
Proof.
  unfold search_hybrid.
  match goal with |- context [take k ?l] => destruct (take_firstn k l) as [m ->] end.
  eapply Nat.le_trans; [apply count_doc_firstn | apply apply_grouping_bound].
Qed.

(** *** Order of the hits of one document *)

Definition same_doc_desc (h1 h2 : hit) : Prop :=
  h_doc_id h1 = h_doc_id h2 ->
  forall s1 s2, h_rrf_score h1 = Some s1 -> h_rrf_score h2 = Some s2 -> s2 <= s1.

Definition groups_sorted (groups : dict (list (string * Q))) (rest : list (string * Q)) : Prop :=
  Forall (fun dg => StronglySorted desc (snd dg)) groups /\
  (forall dg x y, In dg groups -> In x (snd dg) -> In y rest -> snd y <= snd x).

Lemma group_pairs_sorted gl kw sem fused groups :
  StronglySorted desc fused -> groups_sorted groups fused ->
  Forall (fun dg => StronglySorted desc (snd dg)) (group_pairs gl kw sem fused groups).
Proof.
  revert groups; induction fused as [|[cid sc] t IH]; simpl; intros groups Hs [Hg Hr];
    [exact Hg|].
  inversion Hs as [|? ? Ht Hhd]; subst.
  apply IH; [exact Ht|].
  set (doc := group_doc_id kw sem cid).
  set (g := match get doc groups with Some g => g | None => [] end).
  set (groups1 := match get doc groups with Some _ => groups | None => set doc [] groups end).
  (* every group of [groups1] is an old group or the fresh empty one *)
  assert (Hg1 : forall dg, In dg groups1 -> In dg groups \/ snd dg = []).
  { intros dg Hdg; subst groups1; destruct (get doc groups); [left; exact Hdg|].
    apply In_set in Hdg as [->|Hdg]; [right; reflexivity | left; exact Hdg]. }
  assert (Hgin : forall x, In x g -> exists dg, In dg groups /\ In x (snd dg)).
  { intros x Hx; subst g; destruct (get doc groups) as [g0|] eqn:E; [|destruct Hx].
    exists (doc, g0); split; [exact (get_In _ _ _ E) | exact Hx]. }
  assert (Hold : groups_sorted groups1 t).
  { split.
    - apply Forall_forall; intros dg Hdg; destruct (Hg1 dg Hdg) as [H|H].
      + exact (proj1 (Forall_forall _ _) Hg dg H).
      + rewrite H; constructor.
    - intros dg x y Hdg Hx Hy; destruct (Hg1 dg Hdg) as [H|H].
      + exact (Hr dg x y H Hx (or_intror Hy)).
      + rewrite H in Hx; destruct Hx. }
  destruct (Nat.ltb (List.length g) gl); [|exact Hold].
  destruct Hold as [Hg1s Hr1]; split.
  - apply Forall_forall; intros dg Hdg; apply In_set in Hdg as [->|Hdg]; simpl.
    + apply StronglySorted_snoc.
      * subst g; destruct (get doc groups) as [g0|] eqn:E; [|constructor].
        exact (proj1 (Forall_forall _ _) Hg (doc, g0) (get_In _ _ _ E)).
      * apply Forall_forall; intros x Hx; destruct (Hgin x Hx) as [dg [Hdg Hxd]].
        exact (Hr dg x (cid, sc) Hdg Hxd (or_introl eq_refl)).
    + exact (proj1 (Forall_forall _ _) Hg1s dg Hdg).
  - intros dg x y Hdg Hx Hy; apply In_set in Hdg as [->|Hdg].
    + simpl in Hx; apply in_app_or in Hx as [Hx|[<-|[]]].
      * destruct (Hgin x Hx) as [dg [Hdg Hxd]].
        exact (Hr dg x y Hdg Hxd (or_intror Hy)).
      * exact (proj1 (Forall_forall _ _) Hhd y Hy).
    + exact (Hr1 dg x y Hdg Hx Hy).
Qed.

Lemma block_ordered kw sem doc g :
  StronglySorted desc g -> ForallOrdPairs same_doc_desc (map (make_hit kw sem doc) g).
Proof.
  induction g as [|p t IH]; simpl; intros Hs; [constructor|].
  inversion Hs as [|? ? Ht Hp]; subst.
  constructor; [|exact (IH Ht)].
  apply Forall_forall; intros h Hh; apply in_map_iff in Hh as [q [<- Hq]].
  intros _ s1 s2 E1 E2; rewrite make_hit_score in E1, E2.
  injection E1 as <-; injection E2 as <-.
  exact (proj1 (Forall_forall _ _) Hp q Hq).
Qed.

Lemma flatten_ordered kw sem groups :
  NoDup (map fst groups) -> Forall (fun dg => StronglySorted desc (snd dg)) groups ->
  ForallOrdPairs same_doc_desc (flatten_groups kw sem groups).
Proof.
  induction groups as [|[doc g] t IH]; simpl; intros Hnd Hs; [constructor|].
  inversion Hnd as [|? ? Hnin Hnd']; subst; inversion Hs as [|? ? Hg Ht]; subst.
  fold (flatten_groups kw sem t).
  apply ForallOrdPairs_app; [exact (block_ordered _ _ _ _ Hg) | exact (IH Hnd' Ht)|].
  intros a b Ha Hb Heq; exfalso; apply Hnin.
  apply in_map_iff in Ha as [q [<- _]]; rewrite make_hit_doc in Heq.
  rewrite Heq; exact (In_flatten_doc _ _ _ _ Hb).
Qed.

Lemma search_hybrid_doc_ordered rrf_k gl kw sem k :
  ForallOrdPairs same_doc_desc (search_hybrid rrf_k gl kw sem k).
Proof.
  unfold search_hybrid.
  match goal with |- context [take k ?l] => destruct (take_firstn k l) as [m ->] end.
  apply ForallOrdPairs_firstn.
  unfold apply_grouping; fold (flatten_groups (kw_dict_of kw) (sem_dict_of sem)
    (group_pairs gl (kw_dict_of kw) (sem_dict_of sem)
       (rrf_fusion rrf_k [map kw_chunk_id kw; map sem_chunk_id sem] (k * 5)) [])).
  apply flatten_ordered.
  - apply (group_pairs_ok gl); split; constructor.
  - apply group_pairs_sorted; [apply rrf_fusion_sorted|].
    split; [constructor | intros dg x y []].
Qed.

(** *** Candidates come from the truncated fused list *)

Lemma group_pairs_from gl kw sem fused groups dg p :
  In dg (group_pairs gl kw sem fused groups) -> In p (snd dg) ->
  In p fused \/ exists dg0, In dg0 groups /\ In p (snd dg0).
Proof.
  revert groups; induction fused as [|[cid sc] t IH]; simpl; intros groups Hdg Hp.
  - right; exists dg; split; assumption.
  - destruct (IH _ Hdg Hp) as [H|[dg0 [Hdg0 Hp0]]]; [left; right; exact H|].
    set (doc := group_doc_id kw sem cid) in *.
    set (g := match get doc groups with Some g => g | None => [] end) in *.
    assert (Hg1 : forall dg1, In dg1 (match get doc groups with Some _ => groups
                                     | None => set doc [] groups end) ->
                  In dg1 groups \/ snd dg1 = []).
    { intros dg1 H1; destruct (get doc groups); [left; exact H1|].
      apply In_set in H1 as [->|H1]; [right; reflexivity | left; exact H1]. }
    assert (Hgin : In p g -> exists dg1, In dg1 groups /\ In p (snd dg1)).
    { intros Hx; subst g; destruct (get doc groups) as [g0|] eqn:E; [|destruct Hx].
      exists (doc, g0); split; [exact (get_In _ _ _ E) | exact Hx]. }
    destruct (Nat.ltb (List.length g) gl).
    + apply In_set in Hdg0 as [->|Hdg0]; simpl in Hp0.
      * apply in_app_or in Hp0 as [Hp0|[<-|[]]]; [right; exact (Hgin Hp0) | left; left; reflexivity].
      * destruct (Hg1 _ Hdg0) as [H|H]; [right; exists dg0; split; assumption|].
        rewrite H in Hp0; destruct Hp0.
    + destruct (Hg1 _ Hdg0) as [H|H]; [right; exists dg0; split; assumption|].
      rewrite H in Hp0; destruct Hp0.
Qed.

Lemma search_hybrid_from_fused rrf_k gl kw sem k h :
  In h (search_hybrid rrf_k gl kw sem k) ->
  In (h_chunk_id h) (map fst (rrf_fusion rrf_k [map kw_chunk_id kw; map sem_chunk_id sem] (k * 5))).
Proof.
  unfold search_hybrid.
  match goal with |- context [take k ?l] => destruct (take_firstn k l) as [m ->] end.
  intros Hh; apply In_firstn_In in Hh.
  unfold apply_grouping in Hh; apply in_flat_map in Hh as [dg [Hdg Hh]].
  apply in_map_iff in Hh as [p [<- Hp]]; rewrite make_hit_chunk.
  destruct (group_pairs_from _ _ _ _ _ _ _ Hdg Hp) as [H|[dg0 [[] _]]].
  exact (in_map fst _ _ H).
Qed.

(** *** RRF scores *)

Definition score_or0 (c : string) (d : dict Q) : Q :=
  match get c d with Some s => s | None => 0 end.

(** Sum of the contributions of the occurrences of [c] in [l], ranks from [rank]. *)
Fixpoint contrib_of (rrf_k rank : nat) (c : string) (l : list string) : Q :=
  match l with
  | [] => 0
  | c' :: t => (if String.eqb c c' then contrib rrf_k rank else 0) + contrib_of rrf_k (S rank) c t
  end.

Lemma add_ranked_score rrf_k rank l sc c :
  score_or0 c (add_ranked rrf_k rank l sc) == score_or0 c sc + contrib_of rrf_k rank c l.
Proof.
  revert rank sc; induction l as [|c' t IH]; intros rank sc; simpl.
  - rewrite Qplus_0_r; reflexivity.
  - rewrite IH; unfold score_or0 at 1.
    destruct (String.eqb_spec c c') as [->|Hne].
    + rewrite get_set_same; fold (score_or0 c' sc).
      rewrite Qplus_assoc; reflexivity.
    + rewrite (get_set_other c' c) by congruence; fold (score_or0 c sc).
      rewrite Qplus_0_l; reflexivity.
Qed.

Lemma get_set_some {V} k (v : V) d c : get c d <> None -> get c (set k v d) <> None.
Proof.
  destruct (String.eqb_spec k c) as [->|Hne].
  - rewrite get_set_same; discriminate.
  - rewrite get_set_other by exact Hne; auto.
Qed.

Lemma add_ranked_present rrf_k rank l sc c :
  (In c l \/ get c sc <> None) -> get c (add_ranked rrf_k rank l sc) <> None.
Proof.
  revert rank sc; induction l as [|c' t IH]; intros rank sc H; simpl.
  - destruct H as [[]|H]; exact H.
  - apply IH.
    destruct H as [[->|H]|H].
    + right; rewrite get_set_same; discriminate.
    + left; exact H.
    + right; apply get_set_some, H.
Qed.

Lemma contrib_of_notin rrf_k rank c l : ~ In c l -> contrib_of rrf_k rank c l == 0.
Proof.
  revert rank; induction l as [|c' t IH]; intros rank H; simpl; [reflexivity|].
  destruct (String.eqb_spec c c') as [->|_]; [exfalso; apply H; left; reflexivity|].
  rewrite IH by (intros H'; apply H; right; exact H'); reflexivity.
Qed.

Lemma contrib_of_nth rrf_k rank c l i :
  NoDup l -> nth_error l i = Some c -> contrib_of rrf_k rank c l == contrib rrf_k (rank + i).
Proof.
  revert rank i; induction l as [|c' t IH]; intros rank i Hnd Hi; [destruct i; discriminate|].
  inversion Hnd as [|? ? Hnin Hnd']; subst; cbn [contrib_of].
  destruct i as [|i]; simpl in Hi.
  - injection Hi as ->; rewrite String.eqb_refl, contrib_of_notin by exact Hnin.
    rewrite Nat.add_0_r, Qplus_0_r; reflexivity.
  - assert (Hc : In c t) by exact (nth_error_In _ _ Hi).
    destruct (String.eqb_spec c c') as [->|_]; [contradiction|].
    rewrite (IH (S rank) i Hnd' Hi).
    replace (S rank + i)%nat with (rank + S i)%nat by lia.
    rewrite Qplus_0_l; reflexivity.
Qed.

Lemma contrib_lt rrf_k i j : (i < j)%nat -> contrib rrf_k j < contrib rrf_k i.
Proof.
  intros Hij; unfold contrib, Qdiv; rewrite !Qmult_1_l.
  assert (Hpos : forall r, 0 < inject_Z (Z.of_nat (rrf_k + r + 1))).
  { intros r; change 0 with (inject_Z 0); rewrite <- Zlt_Qlt; lia. }
  apply (proj1 (Qinv_lt_contravar _ _ (Hpos i) (Hpos j))).
  rewrite <- Zlt_Qlt; lia.
Qed.

Lemma rrf_scores_two rrf_k l1 l2 c :
  score_or0 c (rrf_scores rrf_k [l1; l2]) == contrib_of rrf_k 0 c l1 + contrib_of rrf_k 0 c l2.
Proof.
  unfold rrf_scores; cbn [fold_left].
  rewrite !add_ranked_score; change (score_or0 c []) with 0.
  rewrite Qplus_0_l; reflexivity.
Qed.

Lemma precedes_in_firstn m l x y :
  StronglySorted desc l -> In x l -> snd y < snd x -> In y (firstn m l) ->
  exists pre post, firstn m l = pre ++ y :: post /\ In x pre.
Proof.
  intros Hs Hx Hlt Hy.
  destruct (in_split _ _ Hy) as [pre [post Hsplit]].
  exists pre, post; split; [exact Hsplit|].
  assert (Hl : l = pre ++ y :: (post ++ skipn m l)).
  { rewrite <- (firstn_skipn m l) at 1; rewrite Hsplit, <- app_assoc; reflexivity. }
  rewrite Hl in Hs, Hx.
  pose proof (StronglySorted_after _ _ _ _ Hs) as Hafter.
  apply in_app_or in Hx as [Hx|[<-|Hx]]; [exact Hx| |].
  - exfalso; exact (Qlt_irrefl _ Hlt).
  - exfalso; apply (Qlt_not_le _ _ Hlt).
    exact (proj1 (Forall_forall _ _) Hafter x Hx).
Qed.

End SearchFacts.

(** ** Search engine claims *)

Module SearchClaims.

Import Py PyFacts Search SearchInputs SearchFacts.
Local Open Scope string_scope.

(** C1 (grouping bound): in hybrid mode no document contributes more than
    [group_limit] hits, but the keyword-only fallback (no embedding function
    or no embeddings) returns four hits of one document with [group_limit = 3]. *)
Theorem group_limit_hybrid_only :
  (forall rrf_k gl kw sem k d, (count_doc d (search rrf_k gl true kw sem k) <= gl)%nat) /\
  count_doc "D" (search 60 3 false one_doc_kw [] 10) = 4%nat.
Proof.
  split.
  - intros; apply search_hybrid_group_bound.
  - vm_compute; reflexivity.
Qed.

(** C2 (counterexample): the hybrid result is not in fused-score order
    (the second hit scores 1/63, the third 1/62), and two hits of equal
    score are not ordered by chunk id ("y" is returned before "x"). *)
Lemma hybrid_order_counterexample :
  map h_chunk_id (search 60 3 true interleaved_kw interleaved_sem 10) = ["A:1"; "A:2"; "B:1"] /\
  map h_rrf_score (search 60 3 true interleaved_kw interleaved_sem 10)
    = [Some (1 / 61 + 1 / 61); Some (1 / 63); Some (1 / 62)] /\
  1 / 63 < 1 / 62 /\
  map h_chunk_id (search 60 3 true tie_kw tie_sem 10) = ["y"; "x"] /\
  map h_rrf_score (search 60 3 true tie_kw tie_sem 10) = [Some (1 / 61); Some (1 / 61)].
Proof. vm_compute; repeat split; reflexivity. Qed.


(** C6 (RRF monotonicity): for chunks [X] and [Y] occurring in both
    (duplicate-free) result lists, [X] ranked strictly better than [Y] in
    both, the summed score of [X] (each rank [r] contributing [1/(rrf_k + r)])
    exceeds that of [Y], and whenever [Y] is in the fused list [X] precedes it. *)
Theorem rrf_fusion_rank_monotone rrf_k l1 l2 X Y i1 j1 i2 j2 :
  NoDup l1 -> NoDup l2 ->
  nth_error l1 i1 = Some X -> nth_error l1 j1 = Some Y -> (i1 < j1)%nat ->
  nth_error l2 i2 = Some X -> nth_error l2 j2 = Some Y -> (i2 < j2)%nat ->
  exists sx sy,
    get X (rrf_scores rrf_k [l1; l2]) = Some sx /\
    get Y (rrf_scores rrf_k [l1; l2]) = Some sy /\
    sx == contrib rrf_k i1 + contrib rrf_k i2 /\
    sy == contrib rrf_k j1 + contrib rrf_k j2 /\
    sy < sx /\
    forall top_k, In (Y, sy) (rrf_fusion rrf_k [l1; l2] top_k) ->
      exists pre post, rrf_fusion rrf_k [l1; l2] top_k = (pre ++ (Y, sy) :: post)%list /\ In (X, sx) pre.
Proof.
  intros Hnd1 Hnd2 HX1 HY1 H1 HX2 HY2 H2.
  assert (Hpres : forall c, In c l2 -> get c (rrf_scores rrf_k [l1; l2]) <> None).
  { intros c Hc; unfold rrf_scores; cbn [fold_left].
    apply add_ranked_present; left; exact Hc. }
  destruct (get X (rrf_scores rrf_k [l1; l2])) as [sx|] eqn:EX;
    [|exfalso; exact (Hpres X (nth_error_In _ _ HX2) EX)].
  destruct (get Y (rrf_scores rrf_k [l1; l2])) as [sy|] eqn:EY;
    [|exfalso; exact (Hpres Y (nth_error_In _ _ HY2) EY)].
  assert (Hsx : sx == contrib rrf_k i1 + contrib rrf_k i2).
  { pose proof (rrf_scores_two rrf_k l1 l2 X) as H; unfold score_or0 in H; rewrite EX in H.
    rewrite H, (contrib_of_nth rrf_k 0 X l1 i1 Hnd1 HX1), (contrib_of_nth rrf_k 0 X l2 i2 Hnd2 HX2).
    reflexivity. }
  assert (Hsy : sy == contrib rrf_k j1 + contrib rrf_k j2).
  { pose proof (rrf_scores_two rrf_k l1 l2 Y) as H; unfold score_or0 in H; rewrite EY in H.
    rewrite H, (contrib_of_nth rrf_k 0 Y l1 j1 Hnd1 HY1), (contrib_of_nth rrf_k 0 Y l2 j2 Hnd2 HY2).
    reflexivity. }
  assert (Hlt : sy < sx).
  { rewrite Hsx, Hsy; apply Qplus_lt_compat; apply contrib_lt; assumption. }
  exists sx, sy; split; [reflexivity|]; split; [reflexivity|].
  split; [exact Hsx|]; split; [exact Hsy|]; split; [exact Hlt|].
  intros top_k Hy.
  unfold rrf_fusion in *.
  destruct (take_firstn top_k (sort_desc (rrf_scores rrf_k [l1; l2]))) as [m Em].
  rewrite Em in *.
  apply (precedes_in_firstn m _ (X, sx) (Y, sy)); [apply sort_desc_sorted | | exact Hlt | exact Hy].
  apply In_sort_desc, get_In, EX.
Qed.

Lemma rrf_fusion_rank_monotone_witness :
  exists sx sy,
    get "x" (rrf_scores 60 [["x"; "y"]; ["x"; "z"; "y"]]) = Some sx /\
    get "y" (rrf_scores 60 [["x"; "y"]; ["x"; "z"; "y"]]) = Some sy /\
    sx == contrib 60 0 + contrib 60 0 /\
    sy == contrib 60 1 + contrib 60 2 /\
    sy < sx /\
    forall top_k, In ("y", sy) (rrf_fusion 60 [["x"; "y"]; ["x"; "z"; "y"]] top_k) ->
      exists pre post, rrf_fusion 60 [["x"; "y"]; ["x"; "z"; "y"]] top_k = (pre ++ ("y", sy) :: post)%list /\
                       In ("x", sx) pre.
Proof.
  apply (rrf_fusion_rank_monotone 60 ["x"; "y"] ["x"; "z"; "y"] "x" "y" 0 1 0 2);
    [ repeat constructor; simpl; intuition discriminate
    | repeat constructor; simpl; intuition discriminate
    | reflexivity | reflexivity | lia | reflexivity | reflexivity | lia ].
Defined.

(** C10 (truncation before grouping): every hit of a hybrid search is one of
    the [k * 5] best fused candidates; with [group_limit = 1] and [k = 2], ten
    candidates of document [A] crowd out the eleventh, of document [B], so one
    hit is returned although grouping the untruncated fused list gives two. *)
Theorem hybrid_hits_from_top_candidates :
  (forall rrf_k gl kw sem k h,
     In h (search rrf_k gl true kw sem k) ->
     In (h_chunk_id h) (map fst (rrf_fusion rrf_k [map kw_chunk_id kw; map sem_chunk_id sem] (k * 5)))) /\
  List.length (search 60 1 true crowded_kw crowded_sem 2) = 1%nat /\
  List.length (take 2 (apply_grouping 1
     (sort_desc (rrf_scores 60 [map kw_chunk_id crowded_kw; map sem_chunk_id crowded_sem]))
     (kw_dict_of crowded_kw) (sem_dict_of crowded_sem))) = 2%nat.
Proof.
  split; [|split; vm_compute; reflexivity].
  intros rrf_k gl kw sem k h; apply search_hybrid_from_fused.
Qed.

End SearchClaims.

(** ** Chunker claims *)

Module ChunkerClaims.

Import Chunker ChunkerInputs.

Lemma chunk_floor rmax rmin txt c :
  In c (chunk rmax rmin txt) -> (rmin <= ch_tokens c)%Z /\ ch_tokens c = count_tokens (ch_text c).
Proof.
  unfold chunk; intros H; apply in_flat_map in H as [s [_ Hs]].
  destruct (Z.leb_spec rmin (count_tokens (sec_text s))) as [Hle|_]; [|destruct Hs].
  destruct Hs as [<-|[]]; simpl; split; [exact Hle | reflexivity].
Qed.

(** C3 (code bug): every emitted chunk has at least [min_chunk_tokens]
    tokens, but a non-empty document below the floor yields no chunk at all:
    the two test texts of test_chunking.py give the empty list. *)
Theorem chunk_below_floor_is_empty :
  (forall rmax rmin txt c, In c (chunk rmax rmin txt) -> (rmin <= ch_tokens c)%Z) /\
  strip simple_text <> [] /\ chunk_text simple_text 100 = [] /\
  strip short_text <> [] /\ chunk_text short_text 500 = [].
Proof.
  split; [intros rmax rmin txt c H; exact (proj1 (chunk_floor _ _ _ _ H))|].
  split; [vm_compute; intros H; discriminate H|].
  split; [vm_compute; reflexivity|].
  split; [vm_compute; intros H; discriminate H|].
  vm_compute; reflexivity.
Qed.

End ChunkerClaims.

(* ------------------------------------------------------------------ *)
(** ** Lookup maps, resolution and backlinks *)

Module LinkFacts.

Import Py PyFacts Link.

Lemma get_set_cases {V} k k' (v : V) d :
  get k (set k' v d) = if String.eqb k k' then Some v else get k d.
Proof.
  destruct (String.eqb_spec k k') as [->|Hne].
  - apply get_set_same.
  - apply get_set_other. congruence.
Qed.

Lemma build_lookup_maps_app rs x :
  build_lookup_maps (rs ++ [x]) = lookup_step (build_lookup_maps rs) x.
Proof. unfold build_lookup_maps. now rewrite fold_left_app. Qed.

Lemma lk_id_get rs k u :
  get k (lk_id (build_lookup_maps rs)) = Some u -> u = k /\ In k (map fst rs).
Proof.
  induction rs as [|[u' r] rs IH] using rev_ind; [discriminate|].
  rewrite build_lookup_maps_app. cbn [lookup_step lk_id]. rewrite get_set_cases.
  rewrite map_app, in_app_iff. cbn.
  destruct (String.eqb_spec k u') as [->|Hne].
  - intros H; inversion H; auto.
  - intros H. destruct (IH H); auto.
Qed.

Lemma lk_id_present rs k :
  In k (map fst rs) -> get k (lk_id (build_lookup_maps rs)) <> None.
Proof.
  induction rs as [|[u' r] rs IH] using rev_ind; [contradiction|].
  rewrite build_lookup_maps_app. cbn [lookup_step lk_id]. rewrite get_set_cases.
  rewrite map_app, in_app_iff. cbn.
  destruct (String.eqb_spec k u') as [->|Hne]; [discriminate|].
  intros [H|[H|[]]]; [auto|congruence].
Qed.

Lemma lk_slug_get rs k u :
  get k (lk_slug (build_lookup_maps rs)) = Some u ->
  exists r, In (u, r) rs /\ r_slug r = k.
Proof.
  induction rs as [|[u' r] rs IH] using rev_ind; [discriminate|].
  rewrite build_lookup_maps_app. cbn [lookup_step lk_slug]. rewrite get_set_cases.
  destruct (String.eqb_spec k (r_slug r)) as [->|Hne].
  - intros H; inversion H; subst. exists r. rewrite in_app_iff. cbn. auto.
  - intros H. destruct (IH H) as [r0 [Hin Hs]]. exists r0. rewrite in_app_iff. auto.
Qed.

Lemma lk_slug_present rs u r :
  In (u, r) rs -> get (r_slug r) (lk_slug (build_lookup_maps rs)) <> None.
Proof.
  induction rs as [|[u' r'] rs IH] using rev_ind; [contradiction|].
  rewrite build_lookup_maps_app. cbn [lookup_step lk_slug]. rewrite get_set_cases.
  rewrite in_app_iff. cbn.
  destruct (String.eqb_spec (r_slug r) (r_slug r')) as [E|Hne]; [discriminate|].
  intros [H|[H|[]]]; [auto|]. inversion H; subst. congruence.
Qed.

Lemma add_aliases_get u al d k v :
  get k (add_aliases u al d) = Some v ->
  (v = u /\ exists a, In a al /\ lower a = k) \/ get k d = Some v.
Proof.
  revert d. induction al as [|a al IH]; intros d H; [auto|].
  cbn in H. destruct (IH _ H) as [[Hv [a' [Ha' Hl]]]|H'].
  - left. split; [exact Hv|]. exists a'. split; [right; exact Ha'|exact Hl].
  - rewrite get_set_cases in H'. destruct (String.eqb_spec k (lower a)) as [->|Hne].
    + inversion H'; subst. left. split; [reflexivity|]. exists a. split; [left|]; reflexivity.
    + right. exact H'.
Qed.

Lemma add_aliases_present u al d k :
  (exists a, In a al /\ lower a = k) \/ get k d <> None ->
  get k (add_aliases u al d) <> None.
Proof.
  revert d. induction al as [|a al IH]; intros d H.
  - destruct H as [[a [[] _]]|H]. exact H.
  - cbn. apply IH. destruct H as [[a' [[<-|Ha'] Hl]]|H].
    + right. rewrite get_set_cases, Hl, String.eqb_refl. discriminate.
    + left. exists a'. auto.
    + right. now apply SearchFacts.get_set_some.
Qed.

Lemma lk_alias_get rs k u :
  get k (lk_alias (build_lookup_maps rs)) = Some u ->
  exists r a, In (u, r) rs /\ In a (r_aliases r) /\ lower a = k.
Proof.
  induction rs as [|[u' r] rs IH] using rev_ind; [discriminate|].
  rewrite build_lookup_maps_app. cbn [lookup_step lk_alias].
  intros H. destruct (add_aliases_get _ _ _ _ _ H) as [[-> [a [Ha Hl]]]|H'].
  - exists r, a. rewrite in_app_iff. cbn. auto.
  - destruct (IH H') as [r0 [a [Hin Ha]]]. exists r0, a. rewrite in_app_iff. auto.
Qed.

Lemma lk_alias_present rs u r a :
  In (u, r) rs -> In a (r_aliases r) ->
  get (lower a) (lk_alias (build_lookup_maps rs)) <> None.
Proof.
  induction rs as [|[u' r'] rs IH] using rev_ind; [contradiction|].
  rewrite build_lookup_maps_app. cbn [lookup_step lk_alias].
  rewrite in_app_iff. cbn. intros [H|[H|[]]] Ha; apply add_aliases_present.
  - right. auto.
  - inversion H; subst. left. exists a. auto.
Qed.

Lemma lk_title_get rs k u :
  get k (lk_title (build_lookup_maps rs)) = Some u ->
  exists r, In (u, r) rs /\ lower (r_title r) = k.
Proof.
  induction rs as [|[u' r] rs IH] using rev_ind; [discriminate|].
  rewrite build_lookup_maps_app. cbn [lookup_step lk_title]. rewrite get_set_cases.
  destruct (String.eqb_spec k (lower (r_title r))) as [->|Hne].
  - intros H; inversion H; subst. exists r. rewrite in_app_iff. cbn. auto.
  - intros H. destruct (IH H) as [r0 [Hin Hs]]. exists r0. rewrite in_app_iff. auto.
Qed.

Lemma lk_title_present rs u r :
  In (u, r) rs -> get (lower (r_title r)) (lk_title (build_lookup_maps rs)) <> None.
Proof.
  induction rs as [|[u' r'] rs IH] using rev_ind; [contradiction|].
  rewrite build_lookup_maps_app. cbn [lookup_step lk_title]. rewrite get_set_cases.
  rewrite in_app_iff. cbn.
  destruct (String.eqb_spec (lower (r_title r)) (lower (r_title r'))) as [E|Hne];
    [discriminate|].
  intros [H|[H|[]]]; [auto|]. inversion H; subst. congruence.
Qed.

(** Backlink bookkeeping. *)

Definition is_target (a : string) (l : link) : bool :=
  match l_target l with Some x => String.eqb x a | None => false end.

Definition bl_count (b a : string) (recs : dict record) : nat :=
  match get b recs with
  | Some r => List.length (filter (is_target a) (r_backlinks r))
  | None => 0
  end.

Definition res_count (b : string) (ls : list link) : nat :=
  List.length (filter (fun l => l_resolved l && is_target b l) ls).

Lemma add_backlink_present src recs l k :
  get k recs <> None -> get k (add_backlink src recs l) <> None.
Proof.
  unfold add_backlink. intros H.
  destruct (l_target l) as [t|]; [|exact H].
  destruct (l_resolved l && negb (String.eqb t "")); [|exact H].
  destruct (get t recs); [|exact H]. now apply SearchFacts.get_set_some.
Qed.

Lemma add_backlink_links src recs l k :
  option_map r_links (get k (add_backlink src recs l)) = option_map r_links (get k recs).
Proof.
  unfold add_backlink.
  destruct (l_target l) as [t|]; [|reflexivity].
  destruct (l_resolved l && negb (String.eqb t "")); [|reflexivity].
  destruct (get t recs) as [tr|] eqn:Ht; [|reflexivity].
  rewrite get_set_cases. destruct (String.eqb_spec k t) as [->|]; [|reflexivity].
  now rewrite Ht.
Qed.

Lemma add_backlink_count src recs l b a :
  get b recs <> None -> b <> ""%string ->
  bl_count b a (add_backlink src recs l) =
  (bl_count b a recs +
   if String.eqb src a && l_resolved l && is_target b l then 1 else 0)%nat.
Proof.
  intros Hb Hne. unfold add_backlink, is_target.
  destruct (l_target l) as [t|] eqn:Ht.
  2:{ rewrite !andb_false_r. lia. }
  destruct (l_resolved l) eqn:Hr.
  2:{ rewrite andb_false_r. cbn. lia. }
  rewrite andb_true_r. cbn [andb].
  destruct (String.eqb_spec t "") as [->|Ht0]; cbn [negb].
  { destruct (String.eqb_spec "" b); [congruence|]. rewrite andb_false_r. lia. }
  destruct (get t recs) as [tr|] eqn:Hg.
  - unfold bl_count. rewrite get_set_cases.
    destruct (String.eqb_spec b t) as [->|Hbt].
    + rewrite Hg, String.eqb_refl. cbn [r_backlinks add_backlink_to].
      rewrite filter_app, length_app. cbn. unfold is_target. cbn.
      destruct (String.eqb src a); cbn; lia.
    + destruct (String.eqb_spec t b); [congruence|]. rewrite andb_false_r. lia.
  - destruct (String.eqb_spec t b) as [->|]; [congruence|]. rewrite andb_false_r. lia.
Qed.

Lemma fold_add_backlink_count src ls recs b a :
  get b recs <> None -> b <> ""%string ->
  bl_count b a (fold_left (add_backlink src) ls recs) =
  (bl_count b a recs + if String.eqb src a then res_count b ls else 0)%nat.
Proof.
  revert recs. induction ls as [|l ls IH]; intros recs Hb Hne.
  - cbn. destruct (String.eqb src a); cbn; lia.
  - cbn [fold_left]. rewrite IH by (auto using add_backlink_present).
    rewrite add_backlink_count by auto. unfold res_count. cbn [filter].
    destruct (String.eqb src a); cbn [andb];
      destruct (l_resolved l && is_target b l); cbn; lia.
Qed.

Definition items_count (b a : string) (items : list (string * list link)) : nat :=
  fold_right (fun it n => ((if String.eqb (fst it) a then res_count b (snd it) else 0) + n)%nat)
    0%nat items.

Lemma add_backlinks_of_present recs it k :
  get k recs <> None -> get k (add_backlinks_of recs it) <> None.
Proof.
  unfold add_backlinks_of. revert recs. induction (snd it); intros recs H; cbn; auto.
  apply IHl. now apply add_backlink_present.
Qed.

Lemma fold_items_count items recs b a :
  get b recs <> None -> b <> ""%string ->
  bl_count b a (fold_left add_backlinks_of items recs) = (bl_count b a recs + items_count b a items)%nat.
Proof.
  revert recs. induction items as [|it items IH]; intros recs Hb Hne.
  - cbn. lia.
  - cbn [fold_left items_count fold_right]. rewrite IH by (auto using add_backlinks_of_present).
    unfold add_backlinks_of at 1. rewrite fold_add_backlink_count by auto.
    fold (items_count b a items). lia.
Qed.

Lemma fold_items_links items recs k :
  option_map r_links (get k (fold_left add_backlinks_of items recs)) = option_map r_links (get k recs).
Proof.
  revert recs. induction items as [|it items IH]; intros recs; [reflexivity|].
  cbn [fold_left]. rewrite IH. unfold add_backlinks_of.
  generalize (snd it) as ls. intros ls. revert recs. induction ls as [|l ls IHl]; intros recs; [reflexivity|].
  cbn [fold_left]. rewrite IHl. apply add_backlink_links.
Qed.

Lemma fold_items_present items recs k :
  get k recs <> None -> get k (fold_left add_backlinks_of items recs) <> None.
Proof.
  revert recs. induction items as [|it items IH]; intros recs H; [exact H|].
  cbn [fold_left]. apply IH. now apply add_backlinks_of_present.
Qed.

Lemma items_count_notin b a items :
  ~ In a (map fst items) -> items_count b a items = 0%nat.
Proof.
  induction items as [|[x ls] items IH]; intros H; [reflexivity|].
  cbn in *. destruct (String.eqb_spec x a) as [->|]; [tauto|]. apply IH. tauto.
Qed.

Lemma items_count_unique b a items ls :
  NoDup (map fst items) -> In (a, ls) items -> items_count b a items = res_count b ls.
Proof.
  induction items as [|[x ls'] items IH]; intros Hnd Hin; [contradiction|].
  cbn in Hnd. inversion Hnd as [|? ? Hx Hnd']; subst.
  cbn [items_count fold_right fst snd]. destruct Hin as [E|Hin].
  - inversion E; subst. rewrite String.eqb_refl.
    fold (items_count b a items). rewrite items_count_notin by exact Hx. lia.
  - destruct (String.eqb_spec x a) as [->|]; [exfalso; apply Hx; now apply (in_map fst) in Hin|].
    apply IH; auto.
Qed.

Lemma get_map_with_links lk rs k :
  get k (map (with_links lk) rs) = option_map (fun r => snd (with_links lk (k, r))) (get k rs).
Proof.
  induction rs as [|[u r] rs IH]; [reflexivity|].
  cbn. destruct (String.eqb_spec k u) as [->|]; [reflexivity|]. exact IH.
Qed.

Lemma keys_map_with_links lk rs : map fst (map (with_links lk) rs) = map fst rs.
Proof. induction rs as [|[u r] rs IH]; cbn; congruence. Qed.

Lemma get_In_keys {V} k (d : dict V) : In k (map fst d) -> exists v, get k d = Some v.
Proof.
  intros H. destruct (get k d) eqn:E; [eauto|]. now apply get_None_notin in E.
Qed.

End LinkFacts.

Module LinkValidationFacts.

Import Py PyFacts Link LinkFacts LinkValidation.

Lemma add_backlink_v_some s rs l rs' :
  add_backlink_v s rs l = Some rs' -> rs' = add_backlink s rs l.
Proof.
  unfold add_backlink_v, add_backlink.
  destruct (l_target l) as [t|]; [|congruence].
  destruct (l_resolved l && negb (String.eqb t "")); [|congruence].
  destruct (get t rs); [|congruence].
  destruct (link_valid _); congruence.
Qed.

Lemma fold_links_v_some s ls acc rs' :
  fold_left (fun acc l => match acc with Some rs => add_backlink_v s rs l | None => None end)
    ls acc = Some rs' ->
  exists rs, acc = Some rs /\ rs' = fold_left (add_backlink s) ls rs.
Proof.
  revert acc; induction ls as [|l ls IH]; intros acc H; cbn in H.
  - exists rs'; split; [exact H | reflexivity].
  - destruct (IH _ H) as [rs1 [E1 ->]].
    destruct acc as [rs|]; [|discriminate E1].
    exists rs; split; [reflexivity|]; cbn.
    apply add_backlink_v_some in E1; subst rs1; reflexivity.
Qed.

Lemma fold_items_v_some items acc rs' :
  fold_left add_backlinks_of_v items acc = Some rs' ->
  exists rs, acc = Some rs /\ rs' = fold_left add_backlinks_of items rs.
Proof.
  revert acc; induction items as [|it items IH]; intros acc H; cbn in H.
  - exists rs'; split; [exact H | reflexivity].
  - destruct (IH _ H) as [rs1 [E1 ->]].
    unfold add_backlinks_of_v in E1.
    destruct (fold_links_v_some _ _ _ _ E1) as [rs [-> ->]].
    exists rs; split; [reflexivity | reflexivity].
Qed.

(** Where the validated run completes, it returns what [process_links] returns. *)
Lemma process_links_v_some rs x : process_links_v rs = Some x -> x = process_links rs.
Proof.
  unfold process_links_v, process_links.
  destruct (forallb _ _); [|discriminate].
  destruct (fold_left add_backlinks_of_v _ _) as [recs2|] eqn:E; [|discriminate].
  intros H; injection H as <-.
  destruct (fold_items_v_some _ _ _ E) as [rs0 [H0 ->]].
  injection H0 as <-; reflexivity.
Qed.

Lemma link_of_type lk wl :
  l_type (link_of lk wl) = type_of_kind (snd (resolve_link (wl_target wl) lk)).
Proof. unfold link_of; destruct (resolve_link _ _); reflexivity. Qed.

End LinkValidationFacts.

(* ------------------------------------------------------------------ *)
(** ** Claims on wikilink resolution and backlinks *)

Module LinkClaims.

Import Py PyFacts Link LinkFacts LinkInputs LinkValidation LinkValidationFacts.
Local Open Scope string_scope.


(** C8 (code bug): [resolve_link] returns the fourth tier ["title"], but
    [models.Link] admits only the types ["slug"], ["id"] and ["alias"]: for
    every record set, as soon as one wikilink target resolves only through
    a title, the [Link(...)] that [process_links] builds for it raises
    [ValidationError], so the link run fails. On records with ULID ids, the
    id, slug and alias tiers and an unresolved target (type slug, no target,
    not resolved) go through; one more link that matches only a title makes
    the run raise. *)
Theorem title_tier_link_raises :
  (forall rs u r wl,
     In (u, r) rs -> In wl (extract_wikilinks (r_full_text r)) ->
     snd (resolve_link (wl_target wl) (build_lookup_maps rs)) = KTitle ->
     process_links_v rs = None) /\
  match process_links_v three_tiers with
  | Some (recs, _, _) =>
      match get ulid_a recs with
      | Some ra => map (fun l => (l_type l, l_target l, l_resolved l)) (r_links ra) =
                   [(LId, Some ulid_b, true); (LSlug, Some ulid_b, true);
                    (LAlias, Some ulid_b, true); (LSlug, None, false)]
      | None => False
      end
  | None => False
  end /\
  resolve_link "gamma NOTE" (build_lookup_maps title_tier) = (Some ulid_c, KTitle) /\
  process_links_v title_tier = None.
Proof.
  split; [|split; [vm_compute; reflexivity | split; vm_compute; reflexivity]].
  intros rs u r wl Hin Hwl Hk.
  unfold process_links_v.
  replace (forallb link_valid _) with false; [reflexivity|].
  symmetry; apply not_true_iff_false; intros Hall.
  rewrite forallb_forall in Hall.
  assert (Hl : In (link_of (build_lookup_maps rs) wl)
                  (flat_map (fun ur => r_links (snd ur)) (map (with_links (build_lookup_maps rs)) rs))).
  { apply in_flat_map; exists (with_links (build_lookup_maps rs) (u, r)); split.
    - apply in_map, Hin.
    - cbn; apply in_map, Hwl. }
  specialize (Hall _ Hl); unfold link_valid in Hall.
  rewrite link_of_type, Hk in Hall; discriminate Hall.
Qed.

(** C5 (amended): after [process_links] on records with distinct ids, for
    documents A and B (B's id non-empty), the backlinks of B whose target is
    A are exactly as many as the resolved links of A to B: one backlink per
    link occurrence in A's text, not one per pair of documents. *)
Theorem backlinks_match_link_occurrences rs a b :
  NoDup (map fst rs) -> In a (map fst rs) -> In b (map fst rs) -> b <> "" ->
  match get b (fst (fst (process_links rs))), get a (fst (fst (process_links rs))) with
  | Some rb, Some ra =>
      List.length (filter (is_target a) (r_backlinks rb)) =
      List.length (filter (fun l => l_resolved l && is_target b l) (r_links ra))
  | _, _ => False
  end.
Proof.
  intros Hnd Ha Hb Hne. unfold process_links. cbn [fst].
  set (lk := build_lookup_maps rs).
  set (recs1 := map (with_links lk) rs).
  set (items := map (fun ur => (fst ur, r_links (snd ur))) recs1).
  assert (Hkeys : map fst items = map fst rs).
  { unfold items. rewrite map_map. cbn. apply keys_map_with_links. }
  destruct (get_In_keys b rs Hb) as [rb0 Hrb0].
  destruct (get_In_keys a rs Ha) as [ra0 Hra0].
  assert (Hb1 : get b recs1 = Some (snd (with_links lk (b, rb0)))).
  { unfold recs1. now rewrite get_map_with_links, Hrb0. }
  assert (Ha1 : get a recs1 = Some (snd (with_links lk (a, ra0)))).
  { unfold recs1. now rewrite get_map_with_links, Hra0. }
  assert (Hcnt := fold_items_count items recs1 b a).
  rewrite Hb1 in Hcnt. specialize (Hcnt ltac:(discriminate) Hne).
  unfold bl_count at 2 in Hcnt. rewrite Hb1 in Hcnt. cbn in Hcnt.
  rewrite (items_count_unique b a items (r_links (snd (with_links lk (a, ra0))))) in Hcnt.
  2:{ now rewrite Hkeys. }
  2:{ unfold items. apply (in_map (fun ur => (fst ur, r_links (snd ur))) recs1 (a, _)).
      now apply get_In. }
  assert (Hla := fold_items_links items recs1 a). rewrite Ha1 in Hla.
  unfold bl_count in Hcnt.
  destruct (get b (fold_left add_backlinks_of items recs1)) as [rb|] eqn:Eb.
  2:{ exfalso. refine (fold_items_present items recs1 b _ Eb). now rewrite Hb1. }
  destruct (get a (fold_left add_backlinks_of items recs1)) as [ra|] eqn:Ea;
    [|discriminate Hla].
  cbn in Hla. inversion Hla as [Hl]. rewrite Hl. unfold res_count in Hcnt. exact Hcnt.
Qed.


(** C5: the count equality on the record set [twice] (both sides are 2). *)
Lemma backlinks_match_link_occurrences_witness :
  NoDup (map fst twice) /\
  match get ulid_b (fst (fst (process_links twice))), get ulid_a (fst (fst (process_links twice))) with
  | Some rb, Some ra =>
      List.length (filter (is_target ulid_a) (r_backlinks rb)) =
      List.length (filter (fun l => l_resolved l && is_target ulid_b l) (r_links ra))
  | _, _ => False
  end.
Proof.
  assert (Hnd : NoDup (map fst twice)).
  { cbn. constructor; [intros [H|[]]; discriminate|].
    constructor; [intros []|constructor]. }
  split; [exact Hnd|].
  apply (backlinks_match_link_occurrences twice ulid_a ulid_b Hnd);
    [cbn; auto | cbn; auto | discriminate].
Defined.

(** C5: on records with ULID ids, A links twice to B; [process_links] runs
    through (every [Link(...)] is valid) and B then carries two backlinks
    targeting A, not exactly one. *)
Lemma backlink_per_occurrence_counterexample :
  process_links_v twice = Some (process_links twice) /\
  match get ulid_b (fst (fst (process_links twice))), get ulid_a (fst (fst (process_links twice))) with
  | Some rb, Some ra =>
      map (fun l => (l_resolved l, l_target l)) (r_links ra) = [(true, Some ulid_b); (true, Some ulid_b)] /\
      List.length (filter (is_target ulid_a) (r_backlinks rb)) = 2%nat
  | _, _ => False
  end.
Proof. vm_compute. split; [reflexivity | split; reflexivity]. Qed.

End LinkClaims.

(* ------------------------------------------------------------------ *)
(** ** Record and chunk file writes *)

Module RecordsIOFacts.

Import Py PyFacts RecordsIO LinkFacts.

(** What a reader sees while [ops] rewrites [path] with [data] in place. *)
Definition overwrite_in_place (path : string) (data : contents) (s0 : fs) (ops : list op) : Prop :=
  hd_error (run s0 ops) = Some (set path [] s0)
  /\ (forall s, In s (run s0 ops) ->
        (exists pre rest, get path s = Some pre /\ (pre ++ rest)%list = data)
        /\ forall q, q <> path -> get q s = get q s0)
  /\ get path (fold_left step ops s0) = Some data
  /\ (forall q, q <> path -> get q (fold_left step ops s0) = get q s0).

Lemma step_other s o q : op_path o <> q -> get q (step s o) = get q s.
Proof.
  destruct o as [p|p d|p]; cbn; intros H; try reflexivity; apply get_set_other; exact H.
Qed.

Lemma run_other s ops p q :
  Forall (fun o => op_path o = p) ops -> q <> p ->
  (forall x, In x (run s ops) -> get q x = get q s) /\ get q (fold_left step ops s) = get q s.
Proof.
  revert s. induction ops as [|o ops IH]; intros s Hf Hq; [cbn; split; [tauto|reflexivity]|].
  inversion Hf as [|? ? Ho Hf']; subst.
  assert (E : get q (step s o) = get q s) by (apply step_other; congruence).
  destruct (IH (step s o) Hf' Hq) as [IH1 IH2]. cbn [run fold_left]. split.
  - intros x [<-|Hx]; [exact E|]. rewrite IH1 by exact Hx. exact E.
  - rewrite IH2. exact E.
Qed.

Lemma run_writes p fl s pre :
  get p s = Some pre ->
  (forall x, In x (run s (map (WriteS p) fl ++ [Close p])%list) ->
     exists mid, get p x = Some (pre ++ mid)%list /\ exists rest, (mid ++ rest)%list = List.concat fl)
  /\ get p (fold_left step (map (WriteS p) fl ++ [Close p])%list s) = Some (pre ++ List.concat fl)%list.
Proof.
  revert s pre. induction fl as [|d fl IH]; intros s pre Hs.
  - cbn. split.
    + intros x [<-|[]]. exists []. rewrite app_nil_r. split; [exact Hs|]. exists []. reflexivity.
    + rewrite app_nil_r. exact Hs.
  - assert (Hs' : get p (step s (WriteS p d)) = Some (pre ++ d)%list).
    { cbn. rewrite Hs. apply get_set_same. }
    destruct (IH _ _ Hs') as [IH1 IH2]. cbn [map app run fold_left List.concat]. split.
    + intros x [<-|Hx].
      * exists d. split; [exact Hs'|]. exists (List.concat fl). reflexivity.
      * destruct (IH1 x Hx) as [mid [Hm [rest Hr]]]. exists (d ++ mid)%list.
        split; [rewrite <- app_assoc in Hm; exact Hm|]. exists rest. rewrite <- app_assoc, Hr. reflexivity.
    + rewrite IH2, app_assoc. reflexivity.
Qed.

Lemma with_open_w_in_place p fl s0 :
  overwrite_in_place p (List.concat fl) s0 (with_open_w p fl).
Proof.
  assert (Hall : Forall (fun o => op_path o = p) (with_open_w p fl)).
  { unfold with_open_w. constructor; [reflexivity|]. apply Forall_app. split.
    - apply Forall_map, Forall_forall. reflexivity.
    - repeat constructor. }
  assert (H0 : get p (step s0 (OpenW p)) = Some []) by apply get_set_same.
  destruct (run_writes p fl _ _ H0) as [W1 W2].
  unfold overwrite_in_place, with_open_w. cbn [run fold_left hd_error]. split; [reflexivity|].
  split; [|split].
  - intros s Hs. split.
    + destruct Hs as [<-|Hs].
      * exists [], (List.concat fl). split; [exact H0|reflexivity].
      * destruct (W1 s Hs) as [mid [Hm [rest Hr]]]. exists mid, rest. split; [exact Hm|exact Hr].
    + intros q Hq. destruct (run_other s0 (with_open_w p fl) p q Hall Hq) as [R1 _].
      apply R1. exact Hs.
  - exact W2.
  - intros q Hq. destruct (run_other s0 (with_open_w p fl) p q Hall Hq) as [_ R2]. exact R2.
Qed.

End RecordsIOFacts.

Module RecordsIOClaims.

Import Py RecordsIO RecordsIOInputs RecordsIOFacts.
Local Open Scope string_scope.

(** C4: [save_record] and [save_chunks] truncate the live file and write into
    it; the state right after [open(out_path, "w")], visible to a concurrent
    reader, holds neither the previous nor the new contents, and the state
    after the first flush holds only a part of the new contents. *)
Lemma save_not_atomic_counterexample :
  let rec_states := run disk0 (save_record_ops "data/metadata" "01A" new_record_flushes) in
  let chunk_states := run disk0 (save_chunks_ops "data/chunks" "01A" new_chunks_flushes) in
  get "data/metadata/01A.json" disk0 = Some old_record
  /\ map (get "data/metadata/01A.json") rec_states =
     [Some []; Some (hd [] new_record_flushes); Some (List.concat new_record_flushes);
      Some (List.concat new_record_flushes)]
  /\ old_record <> [] /\ List.concat new_record_flushes <> []
  /\ get "data/chunks/01A.ndjson" disk0 = Some old_chunks
  /\ map (get "data/chunks/01A.ndjson") chunk_states =
     [Some []; Some (hd [] new_chunks_flushes); Some (List.concat new_chunks_flushes);
      Some (List.concat new_chunks_flushes)]
  /\ old_chunks <> [] /\ List.concat new_chunks_flushes <> [].
Proof.
  cbv zeta. vm_compute.
  repeat split; try reflexivity; discriminate.
Qed.

(** C4 (amended): [save_record] and [save_chunks] overwrite the file in place.
    The first state a reader can observe is the truncated, empty file; every
    observable state holds a prefix of the new contents at the written path
    and leaves every other path alone; once the [with] block closes, the file
    holds exactly the new contents. *)
Theorem save_overwrites_in_place records_dir chunks_dir id flushes s0 :
  overwrite_in_place (record_path records_dir id) (List.concat flushes) s0
    (save_record_ops records_dir id flushes)
  /\ overwrite_in_place (chunks_path chunks_dir id) (List.concat flushes) s0
    (save_chunks_ops chunks_dir id flushes).
Proof.
  split; apply with_open_w_in_place.
Qed.

End RecordsIOClaims.

(* ------------------------------------------------------------------ *)
(** ** Relevance bounds *)

Module RelevanceFacts.

Import Relevance.
Local Open Scope R_scope.

Lemma clamp01_bounds x : 0 <= clamp01 x <= 1.
Proof.
  unfold clamp01, py_max, py_min.
  destruct (Rlt_dec x 1); destruct (Rlt_dec 0 _); lra.
Qed.

Lemma max_float_ge_1 : 1 <= max_float.
Proof.
  unfold max_float.
  assert (H52 : 1 <= 2 ^ 52) by (apply pow_R1_Rle; lra).
  assert (H1023 : 1 <= 2 ^ 1023) by (apply pow_R1_Rle; lra).
  assert (Hinv : / 2 ^ 52 <= 1).
  { rewrite <- Rinv_1. apply Rinv_le_contravar; lra. }
  replace 1 with (1 * 1) by ring.
  apply Rmult_le_compat; lra.
Qed.

End RelevanceFacts.

Module RelevanceClaims.

Import Relevance RelevanceFacts.
Local Open Scope R_scope.

(** C7: for all configured weights and half-life, every record and every
    time [now] (past or future [updated]), a relevance score returned by
    [compute_relevance_score] lies in [0, 1]; a score is returned whenever the
    half-life is positive and [updated] is not later than [now]. *)
Theorem relevance_in_unit_interval w_r w_l w_q w_u half_life r now :
  match compute_relevance_score w_r w_l w_q w_u half_life r now with
  | Some v => 0 <= v <= 1
  | None => True
  end
  /\ (0 < half_life -> updated r <= now ->
      exists v, compute_relevance_score w_r w_l w_q w_u half_life r now = Some v).
Proof.
  unfold compute_relevance_score. split.
  - destruct (compute_recency_score half_life r now); [apply clamp01_bounds|exact I].
  - intros Hh Hu. unfold compute_recency_score.
    destruct (Req_dec_T half_life 0) as [E|_]; [lra|].
    set (x := - ((now - updated r) / 86400) / half_life).
    assert (Hx : x <= 0).
    { unfold x, Rdiv. rewrite <- Ropp_mult_distr_l.
      apply Ropp_le_cancel. rewrite Ropp_involutive, Ropp_0.
      apply Rmult_le_pos; [apply Rmult_le_pos; [lra|]|];
        left; apply Rinv_0_lt_compat; lra. }
    destruct (Rlt_dec max_float (exp x)) as [Hlt|_]; [|eauto].
    exfalso. assert (exp x <= 1).
    { rewrite <- exp_0. destruct (Req_dec x 0) as [->|Hne]; [lra|].
      left. apply exp_increasing. lra. }
    pose proof max_float_ge_1. lra.
Qed.

End RelevanceClaims.

(* ------------------------------------------------------------------ *)
(** ** Normalised embeddings *)

Module EmbeddingsFacts.

Import Embeddings.
Local Open Scope R_scope.

Lemma sumsq_nonneg v : 0 <= sumsq v.
Proof.
  induction v as [|x v IH]; cbn; [lra|].
  pose proof (Rle_0_sqr x) as H. unfold Rsqr in H. lra.
Qed.

Lemma sumsq_scale v c : sumsq (map (fun x => x / c) v) = sumsq v * (/ c * / c).
Proof.
  induction v as [|x v IH]; cbn; [ring|]. rewrite IH. unfold Rdiv. ring.
Qed.

Lemma norm_normalize_row v : norm v <> 0 -> norm (normalize_row v) = 1.
Proof.
  intros Hn. unfold normalize_row.
  destruct (Req_dec_T (norm v) 0) as [E|_]; [contradiction|].
  assert (Hpos : 0 <= norm v) by apply sqrt_pos.
  unfold norm at 1. rewrite sumsq_scale.
  rewrite sqrt_mult by (apply sumsq_nonneg || (rewrite <- Rinv_mult; apply Rlt_le, Rinv_0_lt_compat, Rmult_lt_0_compat; lra)).
  fold (norm v). rewrite sqrt_square by (apply Rlt_le, Rinv_0_lt_compat; lra).
  apply Rinv_r. exact Hn.
Qed.

Lemma normalize_row_zero v : norm v = 0 -> normalize_row v = v.
Proof.
  intros Hn. unfold normalize_row.
  destruct (Req_dec_T (norm v) 0) as [_|E]; [|contradiction].
  clear Hn. induction v as [|x v IH]; [reflexivity|]. cbn [map].
  rewrite IH. f_equal. unfold Rdiv. rewrite Rinv_1. ring.
Qed.

Lemma zeros_norm v : Forall (fun x => x = 0) v -> norm v = 0.
Proof.
  intros H. unfold norm. replace (sumsq v) with 0; [apply sqrt_0|].
  induction H as [|x v Hx _ IH]; cbn; [reflexivity|]. rewrite Hx, <- IH. ring.
Qed.

Lemma Forall2_map_r {A B} (P : A -> B -> Prop) (f : A -> B) l :
  (forall a, P a (f a)) -> Forall2 P l (map f l).
Proof. intros H. induction l; constructor; auto. Qed.

End EmbeddingsFacts.

Module EmbeddingsClaims.

Import Embeddings EmbeddingsFacts.
Local Open Scope R_scope.

(** C9: after [_load_chunk_embeddings], each stored row is the loaded
    vector itself when that vector is all zeros, and has norm 1 when the
    vector has a non-zero norm; so every stored row with a non-zero norm has
    norm 1. The load succeeds whenever the kept vectors have one common
    length. [_cosine_similarity] with a zero-norm query divides by nothing
    and returns 0 for every row. *)
Theorem embeddings_normalized files :
  (forall hashes mat, load_chunk_embeddings files = Some (hashes, mat) ->
     hashes = map fst (loaded files)
     /\ Forall2 (fun v row => (Forall (fun x => x = 0) v -> row = v) /\
                              (norm v <> 0 -> norm row = 1))
          (map snd (loaded files)) mat
     /\ (forall row, In row mat -> norm row <> 0 -> norm row = 1))
  /\ ((forall v w, In v (map snd (loaded files)) -> In w (map snd (loaded files)) ->
        List.length v = List.length w) ->
      exists hashes mat, load_chunk_embeddings files = Some (hashes, mat))
  /\ (forall q mat, norm q = 0 ->
      exists sims, cosine_similarity q mat = Some sims /\ Forall (fun s => s = 0) sims /\
                   (size mat <> 0%nat -> List.length sims = List.length mat)).
Proof.
  split; [|split].
  - intros hashes mat. unfold load_chunk_embeddings.
    destruct (loaded files) as [|[h0 v0] rest] eqn:E.
    + intros H. inversion H; subst. cbn. split; [reflexivity|]. split; [constructor|].
      intros _ [].
    + destruct (forallb _ _) eqn:Hall; [|discriminate].
      intros H. injection H as Hh Hm. subst hashes mat. split; [reflexivity|].
      rewrite <- (map_map snd normalize_row). split.
      * refine (Forall2_map_r _ normalize_row (map snd ((h0, v0) :: rest)) _). intros v. split.
        -- intros Hz. apply normalize_row_zero, zeros_norm, Hz.
        -- apply norm_normalize_row.
      * intros row Hin Hr.
        change (In row (map normalize_row (map snd ((h0, v0) :: rest)))) in Hin.
        apply in_map_iff in Hin. destruct Hin as [v [<- _]].
        destruct (Req_dec_T (norm v) 0) as [Hz|Hnz].
        -- rewrite normalize_row_zero in Hr |- * by exact Hz. contradiction.
        -- apply norm_normalize_row, Hnz.
  - intros Hlen. unfold load_chunk_embeddings.
    destruct (loaded files) as [|[h0 v0] rest] eqn:E; [eauto|].
    replace (forallb _ _) with true; [eauto|]. symmetry. apply forallb_forall.
    intros [h v] Hin. apply Nat.eqb_eq. apply Hlen.
    + apply (in_map snd) in Hin. exact Hin.
    + left. reflexivity.
  - intros q mat Hq. unfold cosine_similarity.
    destruct (Nat.eqb_spec (size mat) 0) as [Hs|Hs].
    + exists []. split; [reflexivity|]. split; [constructor|]. intros H; contradiction.
    + destruct (Req_dec_T (norm q) 0) as [_|E]; [|contradiction].
      exists (repeat 0 (List.length mat)). split; [reflexivity|]. split.
      * apply Forall_forall. intros x Hx. apply repeat_spec in Hx. exact Hx.
      * intros _. apply repeat_length.
Qed.

End EmbeddingsClaims.

(* ------------------------------------------------------------------ *)
(** ** Search engine: grouping, fusion and the semantic stage *)

Module SearchExtraFacts.

Import Py PyFacts Search SearchFacts.

Definition get_or_nil {V} (d : string) (groups : dict (list V)) : list V :=
  match get d groups with Some g => g | None => [] end.

Definition of_doc (kw : dict kw_hit) (sem : dict sem_hit) (d : string) (p : string * Q) : bool :=
  String.eqb (group_doc_id kw sem (fst p)) d.

Lemma get_or_nil_set_same {V} k (v : list V) d : get_or_nil k (set k v d) = v.
Proof. unfold get_or_nil; rewrite get_set_same; reflexivity. Qed.

Lemma get_or_nil_set_other {V} k k' (v : list V) d :
  k <> k' -> get_or_nil k' (set k v d) = get_or_nil k' d.
Proof. intros H; unfold get_or_nil; rewrite get_set_other by exact H; reflexivity. Qed.

Lemma group_pairs_get gl kw sem fused groups d :
  (List.length (get_or_nil d groups) <= gl)%nat ->
  get_or_nil d (group_pairs gl kw sem fused groups) =
  firstn gl (get_or_nil d groups ++ filter (of_doc kw sem d) fused).
Proof.
  revert groups; induction fused as [|[cid sc] t IH]; intros groups Hle; cbn [group_pairs filter].
  - rewrite app_nil_r, firstn_all2 by exact Hle; reflexivity.
  - unfold of_doc at 1; cbn [fst].
    set (doc := group_doc_id kw sem cid).
    set (g := match get doc groups with Some g => g | None => [] end).
    set (groups1 := match get doc groups with Some _ => groups | None => set doc [] groups end).
    assert (H1 : forall x, get_or_nil x groups1 = get_or_nil x groups).
    { intros x; subst groups1; destruct (get doc groups) as [g0|] eqn:E; [reflexivity|].
      destruct (String.eqb_spec doc x) as [<-|Hne].
      - rewrite get_or_nil_set_same; unfold get_or_nil; rewrite E; reflexivity.
      - apply get_or_nil_set_other, Hne. }
    assert (Hg : g = get_or_nil doc groups) by reflexivity.
    destruct (String.eqb_spec doc d) as [Hd|Hne].
    + rewrite <- Hd in *.
      destruct (Nat.ltb_spec (List.length g) gl) as [Hlt|Hge].
      * rewrite IH by (rewrite get_or_nil_set_same, length_app; simpl; lia).
        rewrite get_or_nil_set_same, Hg, <- app_assoc; reflexivity.
      * rewrite IH by (rewrite H1; exact Hle).
        rewrite H1, <- Hg.
        assert (Hl : List.length g = gl) by (rewrite Hg in *; lia).
        rewrite !firstn_app, Hl, Nat.sub_diag; cbn [firstn].
        reflexivity.
    + destruct (Nat.ltb (List.length g) gl).
      * rewrite IH by (rewrite get_or_nil_set_other by exact Hne; rewrite H1; exact Hle).
        rewrite get_or_nil_set_other, H1 by exact Hne; reflexivity.
      * rewrite IH by (rewrite H1; exact Hle); rewrite H1; reflexivity.
Qed.

Lemma filter_flatten kw sem groups d :
  NoDup (map fst groups) ->
  filter (fun h => String.eqb (h_doc_id h) d) (flatten_groups kw sem groups) =
  map (make_hit kw sem d) (get_or_nil d groups).
Proof.
  induction groups as [|[doc g] t IH]; simpl; intros Hnd; [reflexivity|].
  inversion Hnd as [|? ? Hnin Hnd']; subst.
  fold (flatten_groups kw sem t); rewrite filter_app, IH by exact Hnd'.
  assert (Hb : filter (fun h => String.eqb (h_doc_id h) d) (map (make_hit kw sem doc) g) =
               if String.eqb doc d then map (make_hit kw sem doc) g else []).
  { induction g as [|p g' IHg]; simpl; [destruct (String.eqb doc d); reflexivity|].
    rewrite make_hit_doc, IHg; destruct (String.eqb doc d); reflexivity. }
  rewrite Hb; unfold get_or_nil; cbn [get].
  destruct (String.eqb_spec doc d) as [<-|Hne].
  - rewrite String.eqb_refl, (notin_get_None doc t Hnin), app_nil_r; reflexivity.
  - destruct (String.eqb_spec d doc); [congruence|reflexivity].
Qed.

(** Keys present in [dict_of key l acc]. *)
Lemma get_dict_of {V} (key : V -> string) l acc c :
  get c (dict_of key l acc) <> None <-> In c (map key l) \/ get c acc <> None.
Proof.
  revert acc; induction l as [|r t IH]; intros acc; simpl; [tauto|].
  rewrite IH.
  destruct (String.eqb_spec (key r) c) as [<-|Hne].
  - rewrite get_set_same; split; [intros _; left; left; reflexivity | intros _; right; discriminate].
  - rewrite get_set_other by exact Hne; split; [tauto|].
    intros [[H|H]|H]; [congruence| left; exact H | right; exact H].
Qed.

Lemma Permutation_insert_desc x l : Permutation (insert_desc x l) (x :: l).
Proof.
  induction l as [|y t IH]; simpl; [reflexivity|].
  destruct (negb (Qle_bool (snd x) (snd y))); [reflexivity|].
  rewrite IH; apply perm_swap.
Qed.

Lemma Permutation_sort_desc_aux l acc : Permutation (sort_desc_aux l acc) (l ++ acc).
Proof.
  revert acc; induction l as [|x t IH]; intros acc; simpl; [reflexivity|].
  rewrite IH, Permutation_insert_desc; symmetry; apply Permutation_middle.
Qed.

Lemma Permutation_sort_desc l : Permutation (sort_desc l) l.
Proof. unfold sort_desc; rewrite Permutation_sort_desc_aux, app_nil_r; reflexivity. Qed.

Lemma keys_add_ranked rrf_k rank l sc x :
  In x (map fst (add_ranked rrf_k rank l sc)) <-> In x l \/ In x (map fst sc).
Proof.
  revert rank sc; induction l as [|c t IH]; intros rank sc; simpl; [tauto|].
  rewrite IH, keys_set; split; [intros [H|[->|H]]; auto | intros [[->|H]|H]; auto].
Qed.

Lemma NoDup_add_ranked rrf_k rank l sc :
  NoDup (map fst sc) -> NoDup (map fst (add_ranked rrf_k rank l sc)).
Proof.
  revert rank sc; induction l as [|c t IH]; intros rank sc H; simpl; [exact H|].
  apply IH, NoDup_keys_set, H.
Qed.

Lemma rrf_scores_keys_gen rrf_k lists acc :
  (forall x, In x (map fst (fold_left (fun sc results => add_ranked rrf_k 0 results sc) lists acc))
             <-> In x (List.concat lists) \/ In x (map fst acc)) /\
  (NoDup (map fst acc) ->
   NoDup (map fst (fold_left (fun sc results => add_ranked rrf_k 0 results sc) lists acc))).
Proof.
  revert acc; induction lists as [|l t IH]; intros acc; simpl; [split; [tauto | auto]|].
  destruct (IH (add_ranked rrf_k 0 l acc)) as [Hk Hn]; split.
  - intros x; rewrite Hk, keys_add_ranked, in_app_iff; tauto.
  - intros H; apply Hn, NoDup_add_ranked, H.
Qed.

Lemma NoDup_firstn {A} m (l : list A) : NoDup l -> NoDup (firstn m l).
Proof.
  rewrite <- (firstn_skipn m l) at 1; intros H.
  exact (NoDup_app_remove_r _ _ H).
Qed.

Lemma flat_map_set_none {V} k (v : list V) (d : dict (list V)) :
  get k d = None -> flat_map snd (set k v d) = flat_map snd d ++ v.
Proof.
  induction d as [|[k' v'] t IH]; simpl; intros H; [rewrite app_nil_r; reflexivity|].
  destruct (String.eqb k k'); [discriminate|].
  simpl; rewrite IH by exact H; apply app_assoc.
Qed.

Lemma flat_map_set_some {V} k g (x : list V) (d : dict (list V)) :
  get k d = Some g -> Permutation (flat_map snd (set k (g ++ x) d)) (flat_map snd d ++ x).
Proof.
  induction d as [|[k' v'] t IH]; simpl; intros H; [discriminate|].
  destruct (String.eqb k k').
  - injection H as ->; simpl; rewrite <- !app_assoc.
    apply Permutation_app_head, Permutation_app_comm.
  - simpl; rewrite <- app_assoc; apply Permutation_app_head, IH, H.
Qed.

Lemma group_pairs_NoDup gl kw sem fused groups :
  NoDup (map fst (flat_map snd groups ++ fused)) ->
  NoDup (map fst (flat_map snd (group_pairs gl kw sem fused groups))).
Proof.
  revert groups; induction fused as [|[cid sc] t IH]; intros groups H; cbn [group_pairs].
  - rewrite app_nil_r in H; exact H.
  - apply IH.
    set (doc := group_doc_id kw sem cid).
    set (g := match get doc groups with Some g => g | None => [] end).
    set (groups1 := match get doc groups with Some _ => groups | None => set doc [] groups end).
    assert (H1 : flat_map snd groups1 = flat_map snd groups).
    { subst groups1; destruct (get doc groups) eqn:E; [reflexivity|].
      rewrite flat_map_set_none by exact E; apply app_nil_r. }
    assert (Hg1 : get doc groups1 = Some g).
    { subst groups1 g; destruct (get doc groups) eqn:E; [exact E | apply get_set_same]. }
    destruct (Nat.ltb (List.length g) gl).
    + apply (Permutation_NoDup (l := map fst (flat_map snd groups ++ (cid, sc) :: t)));
        [apply Permutation_map | exact H].
      symmetry; eapply Permutation_trans; [apply Permutation_app_tail, (flat_map_set_some _ _ _ _ Hg1)|].
      rewrite <- app_assoc; apply Permutation_app; [apply Permutation_refl'; exact H1 | reflexivity].
    + change (NoDup (map fst (flat_map snd groups1 ++ t))); rewrite H1.
      rewrite map_app in H |- *; cbn [map] in H.
      exact (NoDup_remove_1 _ _ _ H).
Qed.

Lemma flatten_chunk_ids kw sem groups :
  map h_chunk_id (flatten_groups kw sem groups) = map fst (flat_map snd groups).
Proof.
  induction groups as [|[doc g] t IH]; simpl; [reflexivity|].
  fold (flatten_groups kw sem t); rewrite !map_app, IH, map_map.
  f_equal; apply map_ext; intros p; apply make_hit_chunk.
Qed.

Lemma rrf_fusion_keys rrf_k lists top_k :
  NoDup (map fst (rrf_fusion rrf_k lists top_k)) /\
  (forall c, In c (map fst (rrf_fusion rrf_k lists top_k)) -> In c (List.concat lists)).
Proof.
  destruct (rrf_scores_keys_gen rrf_k lists []) as [Hk Hn].
  unfold rrf_fusion; destruct (take_firstn top_k (sort_desc (rrf_scores rrf_k lists))) as [m ->].
  split.
  - rewrite <- firstn_map; apply NoDup_firstn.
    eapply Permutation_NoDup; [symmetry; apply Permutation_map, Permutation_sort_desc|].
    apply Hn; constructor.
  - intros c Hc; rewrite <- firstn_map in Hc; apply In_firstn_In in Hc.
    apply (Permutation_in _ (Permutation_map fst (Permutation_sort_desc _))) in Hc.
    apply Hk in Hc as [Hc|[]]; exact Hc.
Qed.

Lemma kw_dict_present kw c : get c (kw_dict_of kw) <> None <-> In c (map kw_chunk_id kw).
Proof. unfold kw_dict_of; rewrite get_dict_of; simpl; tauto. Qed.

Lemma sem_dict_present sem c : get c (sem_dict_of sem) <> None <-> In c (map sem_chunk_id sem).
Proof. unfold sem_dict_of; rewrite get_dict_of; simpl; tauto. Qed.

Lemma search_hybrid_make_hit rrf_k gl kw sem k h :
  In h (search_hybrid rrf_k gl kw sem k) ->
  exists doc p, h = make_hit (kw_dict_of kw) (sem_dict_of sem) doc p.
Proof.
  unfold search_hybrid.
  match goal with |- context [take k ?l] => destruct (take_firstn k l) as [m ->] end.
  intros Hh; apply In_firstn_In in Hh.
  unfold apply_grouping in Hh; apply in_flat_map in Hh as [dg [_ Hh]].
  apply in_map_iff in Hh as [p [<- _]]; eauto.
Qed.

Lemma group_pairs_zero kw sem fused :
  flatten_groups kw sem (group_pairs 0 kw sem fused []) = [].
Proof.
  destruct (group_pairs_ok 0 kw sem fused []) as [_ Hlen]; [split; constructor|].
  induction (group_pairs 0 kw sem fused []) as [|[d g] t IH]; [reflexivity|].
  inversion Hlen as [|? ? Hg Ht]; subst; simpl in Hg.
  destruct g; [|simpl in Hg; lia].
  exact (IH Ht).
Qed.

(** [_semantic_search] keeps the order of its index list and drops indices. *)
Lemma hit_of_score hashes sims h2c idx h :
  In h (Semantic.hit_of hashes sims h2c idx) -> sem_score h = nth idx sims 0.
Proof.
  unfold Semantic.hit_of; destruct (get _ h2c) as [cid|]; [|intros []].
  destruct (String.eqb cid ""); [intros []|intros [<-|[]]; reflexivity].
Qed.

Lemma hit_of_length hashes sims h2c idx :
  (List.length (Semantic.hit_of hashes sims h2c idx) <= 1)%nat.
Proof.
  unfold Semantic.hit_of; destruct (get _ h2c) as [cid|]; [|simpl; lia].
  destruct (String.eqb cid ""); simpl; lia.
Qed.

Lemma hit_of_meta hashes sims h2c idx h :
  In h (Semantic.hit_of hashes sims h2c idx) ->
  get (sem_chunk_hash h) h2c = Some (sem_chunk_id h) /\ sem_chunk_id h <> ""%string /\
  sem_doc_id h = before_colon (sem_chunk_id h).
Proof.
  unfold Semantic.hit_of; destruct (get _ h2c) as [cid|] eqn:E; [|intros []].
  destruct (String.eqb_spec cid ""); [intros []|intros [<-|[]]; simpl].
  split; [exact E|]; split; [assumption | reflexivity].
Qed.

Lemma flat_map_hit_of_sorted hashes sims h2c idxs :
  StronglySorted (fun i j => nth j sims 0 <= nth i sims 0) idxs ->
  StronglySorted (fun a b => sem_score b <= sem_score a)
    (flat_map (Semantic.hit_of hashes sims h2c) idxs).
Proof.
  induction idxs as [|i t IH]; simpl; intros Hs; [constructor|].
  inversion Hs as [|? ? Ht Hi]; subst.
  assert (Hrest : forall a b, In a (Semantic.hit_of hashes sims h2c i) ->
                  In b (flat_map (Semantic.hit_of hashes sims h2c) t) -> sem_score b <= sem_score a).
  { intros a b Ha Hb; apply in_flat_map in Hb as [j [Hj Hb]].
    rewrite (hit_of_score _ _ _ _ _ Ha), (hit_of_score _ _ _ _ _ Hb).
    exact (proj1 (Forall_forall _ _) Hi j Hj). }
  pose proof (hit_of_length hashes sims h2c i) as Hl.
  destruct (Semantic.hit_of hashes sims h2c i) as [|a [|b r]] eqn:E; simpl in Hl |- *;
    [exact (IH Ht) | | lia].
  constructor; [exact (IH Ht)|].
  apply Forall_forall; intros b Hb; apply Hrest; [left; reflexivity | exact Hb].
Qed.

Lemma StronglySorted_rev {A} (R : A -> A -> Prop) l :
  StronglySorted R l -> StronglySorted (fun a b => R b a) (rev l).
Proof.
  induction l as [|a t IH]; simpl; intros Hs; [constructor|].
  inversion Hs as [|? ? Ht Ha]; subst.
  apply StronglySorted_snoc; [exact (IH Ht)|].
  apply Forall_forall; intros b Hb; apply in_rev in Hb.
  exact (proj1 (Forall_forall _ _) Ha b Hb).
Qed.

End SearchExtraFacts.

Module SearchExtras.

Import Py PyFacts Search SearchFacts SearchExtraFacts.

(** The hits [_apply_grouping] returns for a document [d] are exactly the
    first [group_limit] fused candidates attributed to [d], in fused order. *)
Theorem apply_grouping_doc_hits gl fused kw sem d :
  filter (fun h => String.eqb (h_doc_id h) d) (apply_grouping gl fused kw sem) =
  map (make_hit kw sem d) (firstn gl (filter (of_doc kw sem d) fused)).
Proof.
  destruct (group_pairs_ok gl kw sem fused []) as [Hnd _]; [split; constructor|].
  unfold apply_grouping; fold (flatten_groups kw sem (group_pairs gl kw sem fused [])).
  rewrite filter_flatten by exact Hnd.
  rewrite group_pairs_get by (cbn; lia); reflexivity.
Qed.

(** [_rrf_fusion] returns each chunk id at most once, only ids of the input
    lists, and every input id when [top_k] is at least the total input length. *)
Theorem rrf_fusion_candidates rrf_k lists top_k :
  NoDup (map fst (rrf_fusion rrf_k lists top_k)) /\
  (forall c, In c (map fst (rrf_fusion rrf_k lists top_k)) -> In c (List.concat lists)) /\
  ((Z.of_nat (List.length (List.concat lists)) <= top_k)%Z ->
   forall c, In c (List.concat lists) -> In c (map fst (rrf_fusion rrf_k lists top_k))).
Proof.
  destruct (rrf_fusion_keys rrf_k lists top_k) as [Hnd Hsub].
  split; [exact Hnd|]; split; [exact Hsub|].
  intros Hle c Hc.
  destruct (rrf_scores_keys_gen rrf_k lists []) as [Hk Hn].
  assert (Hnd0 : NoDup (map fst (rrf_scores rrf_k lists))) by (apply Hn; constructor).
  assert (Hlen : (List.length (rrf_scores rrf_k lists) <= List.length (List.concat lists))%nat).
  { rewrite <- (length_map fst); apply NoDup_incl_length; [exact Hnd0|].
    intros x Hx; apply Hk in Hx as [Hx|[]]; exact Hx. }
  unfold rrf_fusion, take.
  destruct (Z.leb_spec 0 top_k) as [_|Hneg]; [|lia].
  rewrite firstn_all2
    by (rewrite (Permutation_length (Permutation_sort_desc _)); lia).
  apply (Permutation_in _ (Permutation_sym (Permutation_map fst (Permutation_sort_desc _)))).
  apply Hk; left; exact Hc.
Qed.

(** In hybrid mode each result's [source] label tells in which retrieval
    stage its chunk was found: both ([hybrid]), only the keyword stage
    ([keyword]) or only the semantic stage ([semantic]). *)
Theorem search_hybrid_source_label rrf_k gl kw sem k :
  Forall (fun h =>
    (h_source h = Hybrid <->
       In (h_chunk_id h) (map kw_chunk_id kw) /\ In (h_chunk_id h) (map sem_chunk_id sem)) /\
    (h_source h = Keyword <->
       In (h_chunk_id h) (map kw_chunk_id kw) /\ ~ In (h_chunk_id h) (map sem_chunk_id sem)) /\
    (h_source h = Semantic <->
       ~ In (h_chunk_id h) (map kw_chunk_id kw) /\ In (h_chunk_id h) (map sem_chunk_id sem)))
    (search_hybrid rrf_k gl kw sem k).
Proof.
  apply Forall_forall; intros h Hh.
  pose proof (search_hybrid_from_fused _ _ _ _ _ _ Hh) as Hf.
  apply (proj2 (rrf_fusion_keys _ _ _)) in Hf; simpl in Hf; rewrite app_nil_r in Hf.
  apply in_app_or in Hf.
  destruct (search_hybrid_make_hit _ _ _ _ _ _ Hh) as [doc [[cid sc] ->]].
  rewrite make_hit_chunk in Hf |- *; cbn [fst] in Hf |- *.
  pose proof (kw_dict_present kw cid) as Hk; pose proof (sem_dict_present sem cid) as Hs.
  unfold make_hit; cbn [h_source h_chunk_id].
  destruct (get cid (kw_dict_of kw)) eqn:Ek, (get cid (sem_dict_of sem)) eqn:Es; cbn [option_map].
  - assert (In cid (map kw_chunk_id kw)) by (apply Hk; discriminate).
    assert (In cid (map sem_chunk_id sem)) by (apply Hs; discriminate).
    repeat split; try discriminate; tauto.
  - assert (In cid (map kw_chunk_id kw)) by (apply Hk; discriminate).
    assert (~ In cid (map sem_chunk_id sem)) by (rewrite <- Hs; tauto).
    repeat split; try discriminate; tauto.
  - assert (~ In cid (map kw_chunk_id kw)) by (rewrite <- Hk; tauto).
    assert (In cid (map sem_chunk_id sem)) by (apply Hs; discriminate).
    repeat split; try discriminate; tauto.
  - assert (~ In cid (map kw_chunk_id kw)) by (rewrite <- Hk; tauto).
    assert (~ In cid (map sem_chunk_id sem)) by (rewrite <- Hs; tauto).
    tauto.
Qed.

(** Hybrid search never returns the same chunk twice. *)
Theorem search_hybrid_no_duplicates rrf_k gl kw sem k :
  NoDup (map h_chunk_id (search_hybrid rrf_k gl kw sem k)).
Proof.
  unfold search_hybrid.
  match goal with |- context [take k ?l] => destruct (take_firstn k l) as [m ->] end.
  rewrite <- firstn_map; apply NoDup_firstn.
  unfold apply_grouping; fold (flatten_groups (kw_dict_of kw) (sem_dict_of sem)
    (group_pairs gl (kw_dict_of kw) (sem_dict_of sem)
       (rrf_fusion rrf_k [map kw_chunk_id kw; map sem_chunk_id sem] (k * 5)) [])).
  rewrite flatten_chunk_ids; apply group_pairs_NoDup; simpl.
  apply rrf_fusion_keys.
Qed.

(** [search] returns no result for [k = 0] in either mode, for
    [group_limit = 0] in hybrid mode, and when both retrieval stages found
    nothing. *)
Theorem search_empty_cases rrf_k gl ready kw sem k :
  search rrf_k gl ready kw sem 0 = [] /\
  search rrf_k 0 true kw sem k = [] /\
  search rrf_k gl ready [] [] k = [].
Proof.
  split; [|split].
  - unfold search, keyword_fallback, search_hybrid; destruct ready; reflexivity.
  - unfold search; cbn [negb]; unfold search_hybrid, apply_grouping.
    fold (flatten_groups (kw_dict_of kw) (sem_dict_of sem)
      (group_pairs 0 (kw_dict_of kw) (sem_dict_of sem)
         (rrf_fusion rrf_k [map kw_chunk_id kw; map sem_chunk_id sem] (k * 5)) [])).
    rewrite group_pairs_zero; unfold take; destruct (0 <=? k)%Z; simpl; rewrite ?firstn_nil; reflexivity.
  - unfold search, keyword_fallback, search_hybrid.
    assert (E : forall A (n : Z), take n (@nil A) = []).
    { intros A n; unfold take; destruct (0 <=? n)%Z; apply firstn_nil. }
    destruct ready; cbn [negb]; [|rewrite E; reflexivity].
    unfold rrf_fusion; cbn [map]; rewrite E; cbn; rewrite E; reflexivity.
Qed.

(** [_semantic_search]: given [argsort], the indices in order of
    non-decreasing similarity (as [np.argsort] returns them), its results
    have non-increasing scores; there are at most [limit] of them for a
    non-negative [limit]; each one's chunk id is the non-empty chunk id its
    hash maps to, and its doc id is the part of that chunk id before the
    first colon. *)
Theorem semantic_search_results hashes sims argsort h2c limit :
  Sorted (fun i j => nth i sims 0 <= nth j sims 0) argsort ->
  let res := Semantic.semantic_search false hashes sims argsort h2c limit in
  StronglySorted (fun a b => sem_score b <= sem_score a) res /\
  ((0 <= limit)%Z -> (List.length res <= Z.to_nat limit)%nat) /\
  Forall (fun h => get (sem_chunk_hash h) h2c = Some (sem_chunk_id h) /\
                   sem_chunk_id h <> ""%string /\
                   sem_doc_id h = before_colon (sem_chunk_id h)) res.
Proof.
  intros Hs res; subst res; unfold Semantic.semantic_search; cbn [negb].
  split; [|split].
  - apply flat_map_hit_of_sorted.
    destruct (take_firstn limit (rev argsort)) as [m ->].
    apply StronglySorted_firstn, StronglySorted_rev.
    apply Sorted_StronglySorted; [|exact Hs].
    intros i j l; apply Qle_trans.
  - intros Hl; unfold take; destruct (Z.leb_spec 0 limit) as [_|]; [|lia].
    assert (G : forall idxs, (List.length (flat_map (Semantic.hit_of hashes sims h2c) idxs)
                              <= List.length idxs)%nat).
    { induction idxs as [|i t IH]; simpl; [lia|].
      rewrite length_app; pose proof (hit_of_length hashes sims h2c i); lia. }
    eapply Nat.le_trans; [apply G|]; apply firstn_le_length.
  - apply Forall_forall; intros h Hh; apply in_flat_map in Hh as [i [_ Hh]].
    exact (hit_of_meta _ _ _ _ _ Hh).
Qed.

Lemma semantic_search_results_witness :
  Sorted (fun i j => nth i [1; 3; 2] 0 <= nth j [1; 3; 2] 0) [0; 2; 1]%nat /\
  (let res := Semantic.semantic_search false ["h0"; "h1"; "h2"]%string [1; 3; 2] [0; 2; 1]%nat
                [("h0", "D:0"); ("h1", "D:1"); ("h2", "")]%string 2 in
   StronglySorted (fun a b => sem_score b <= sem_score a) res /\
   ((0 <= 2)%Z -> (List.length res <= Z.to_nat 2)%nat) /\
   Forall (fun h => get (sem_chunk_hash h) [("h0", "D:0"); ("h1", "D:1"); ("h2", "")]%string
                      = Some (sem_chunk_id h) /\
                    sem_chunk_id h <> ""%string /\
                    sem_doc_id h = before_colon (sem_chunk_id h)) res).
Proof.
  assert (Hs : Sorted (fun i j => nth i [1; 3; 2] 0 <= nth j [1; 3; 2] 0) [0; 2; 1]%nat).
  { repeat constructor; apply Qle_bool_iff; reflexivity. }
  split; [exact Hs|].
  exact (semantic_search_results ["h0"; "h1"; "h2"]%string [1; 3; 2] [0; 2; 1]%nat
           [("h0", "D:0"); ("h1", "D:1"); ("h2", "")]%string 2 Hs).
Defined.

End SearchExtras.

(* ------------------------------------------------------------------ *)
(** ** Grouped hybrid results *)

Module SearchGroupingClaims.

Import Py PyFacts Search SearchFacts SearchExtraFacts.

(** The elements of [l] not in [seen], each once, in order of first appearance. *)
Fixpoint first_appearance (seen l : list string) : list string :=
  match l with
  | [] => []
  | x :: t =>
      if existsb (String.eqb x) seen then first_appearance seen t
      else x :: first_appearance (seen ++ [x]) t
  end.

Lemma existsb_keys {V} k (d : dict V) :
  existsb (String.eqb k) (map fst d) = match get k d with Some _ => true | None => false end.
Proof.
  induction d as [|[k0 v0] t IH]; cbn; [reflexivity|].
  destruct (String.eqb k k0); [reflexivity | exact IH].
Qed.

Lemma map_fst_set {V} k (v : V) d :
  map fst (set k v d) = match get k d with Some _ => map fst d | None => map fst d ++ [k] end.
Proof.
  induction d as [|[k0 v0] t IH]; cbn; [reflexivity|].
  destruct (String.eqb_spec k k0) as [->|Hne]; cbn; [reflexivity|].
  rewrite IH; destruct (get k t); reflexivity.
Qed.

Lemma group_pairs_keys gl kw sem fused groups :
  map fst (group_pairs gl kw sem fused groups) =
  map fst groups ++ first_appearance (map fst groups) (map (fun p => group_doc_id kw sem (fst p)) fused).
Proof.
  revert groups; induction fused as [|[cid sc] t IH]; intros groups; cbn [group_pairs map fst].
  - cbn; rewrite app_nil_r; reflexivity.
  - set (doc := group_doc_id kw sem cid).
    cbn [first_appearance]; rewrite existsb_keys.
    set (g := match get doc groups with Some g => g | None => [] end).
    set (groups1 := match get doc groups with Some _ => groups | None => set doc [] groups end).
    assert (Hp : get doc groups1 <> None).
    { subst groups1; destruct (get doc groups) eqn:E; [rewrite E; discriminate|].
      rewrite get_set_same; discriminate. }
    assert (E2 : map fst (if Nat.ltb (List.length g) gl return dict (list (string * Q)) then set doc (g ++ [(cid, sc)]) groups1 else groups1) =
                 map fst groups1).
    { destruct (Nat.ltb _ _); [|reflexivity].
      rewrite map_fst_set; destruct (get doc groups1); [reflexivity | contradiction]. }
    rewrite IH.
    rewrite E2.
    subst groups1; destruct (get doc groups) eqn:E; [reflexivity|].
    rewrite map_fst_set, E, <- app_assoc; reflexivity.
Qed.

Lemma flat_map_ext_in' {A B} (f g : A -> list B) l :
  (forall a, In a l -> f a = g a) -> flat_map f l = flat_map g l.
Proof.
  induction l as [|a l IH]; intros H; cbn; [reflexivity|].
  rewrite H by (left; reflexivity); f_equal; apply IH; intros x Hx; apply H; right; exact Hx.
Qed.

Lemma flatten_by_keys kw sem groups :
  NoDup (map fst groups) ->
  flatten_groups kw sem groups =
  flat_map (fun d => map (make_hit kw sem d) (get_or_nil d groups)) (map fst groups).
Proof.
  induction groups as [|[doc g] t IH]; intros Hnd; [reflexivity|].
  inversion Hnd as [|? ? Hn Hnd']; subst.
  unfold flatten_groups; cbn [flat_map map fst snd]; fold (flatten_groups kw sem t).
  unfold get_or_nil at 1; cbn [get]; rewrite String.eqb_refl.
  f_equal; rewrite IH by exact Hnd'.
  apply flat_map_ext_in'; intros d Hd.
  unfold get_or_nil; cbn [get].
  destruct (String.eqb_spec d doc) as [->|_]; [contradiction | reflexivity].
Qed.

(** C2 (amended): every hybrid search returns the first [k] hits of this
    list: the documents of the fused candidates ([_rrf_fusion] with
    [top_k = k * 5]) in order of first appearance, each document once,
    each followed by its first [group_limit] fused candidates in fused
    order. So the hits of one document are consecutive, and along the
    result they never rise in summed RRF score. *)
Theorem hybrid_grouped_by_document rrf_k gl kw sem k :
  let kwd := kw_dict_of kw in
  let semd := sem_dict_of sem in
  let fused := rrf_fusion rrf_k [map kw_chunk_id kw; map sem_chunk_id sem] (k * 5) in
  let docs := first_appearance [] (map (fun p => group_doc_id kwd semd (fst p)) fused) in
  search rrf_k gl true kw sem k =
    take k (flat_map (fun d =>
              map (make_hit kwd semd d)
                  (firstn gl (filter (fun p => String.eqb (group_doc_id kwd semd (fst p)) d) fused)))
            docs) /\
  NoDup docs /\
  ForallOrdPairs (fun h1 h2 => h_doc_id h1 = h_doc_id h2 ->
                   forall s1 s2, h_rrf_score h1 = Some s1 -> h_rrf_score h2 = Some s2 -> s2 <= s1)
    (search rrf_k gl true kw sem k).
Proof.
  cbv zeta.
  set (kwd := kw_dict_of kw); set (semd := sem_dict_of sem).
  set (fused := rrf_fusion rrf_k [map kw_chunk_id kw; map sem_chunk_id sem] (k * 5)).
  set (G := group_pairs gl kwd semd fused []).
  destruct (group_pairs_ok gl kwd semd fused []) as [Hnd _]; [split; constructor|].
  fold G in Hnd.
  assert (Hk : map fst G = first_appearance [] (map (fun p => group_doc_id kwd semd (fst p)) fused))
    by (unfold G; rewrite group_pairs_keys; reflexivity).
  split; [|split].
  - unfold search; cbn [negb]; unfold search_hybrid; fold kwd semd fused.
    f_equal; unfold apply_grouping; fold G; fold (flatten_groups kwd semd G).
    rewrite flatten_by_keys by exact Hnd; rewrite <- Hk.
    apply flat_map_ext_in'; intros d _; f_equal.
    unfold G; rewrite group_pairs_get by (cbn; lia); reflexivity.
  - rewrite <- Hk; exact Hnd.
  - exact (search_hybrid_doc_ordered rrf_k gl kw sem k).
Qed.

End SearchGroupingClaims.

(* ------------------------------------------------------------------ *)
(** ** Chunker and chunk_document *)

Module ChunkerExtraFacts.

Import Chunker.

Lemma chunk_out_tokens rmax rmin txt :
  Forall (fun c => (rmin <= ch_tokens c)%Z /\ ch_tokens c = count_tokens (ch_text c) /\
                   exists s, In s (flat_map (split_large_section rmax) (split_by_headings txt)) /\
                             ch_text c = sec_text s /\ ch_section c = sec_section s /\
                             ch_subsection c = sec_subsection s)
    (chunk rmax rmin txt).
Proof.
  unfold chunk; apply Forall_forall; intros c H; apply in_flat_map in H as [s [Hs Hc]].
  destruct (Z.leb_spec rmin (count_tokens (sec_text s))) as [Hle|_]; [|destruct Hc].
  destruct Hc as [<-|[]]; simpl; split; [exact Hle|]; split; [reflexivity|].
  exists s; repeat split; assumption.
Qed.

Lemma split_large_section_meta rmax sec s :
  In s (split_large_section rmax sec) ->
  sec_section s = sec_section sec /\ sec_subsection s = sec_subsection sec.
Proof.
  unfold split_large_section; destruct (count_tokens (sec_text sec) <=? rmax)%Z.
  - intros [<-|[]]; split; reflexivity.
  - intros H; apply in_map_iff in H as [t [<- _]]; split; reflexivity.
Qed.

Lemma before_colon_app (d h : string) :
  ~ In ":"%char (list_ascii_of_string d) -> Py.before_colon (d ++ ":" ++ h)%string = d.
Proof.
  induction d as [|c d IH]; simpl; intros Hd.
  - reflexivity.
  - destruct (Ascii.eqb_spec c ":") as [->|_]; [exfalso; apply Hd; left; reflexivity|].
    f_equal; apply IH; intros H; apply Hd; right; exact H.
Qed.

End ChunkerExtraFacts.

Module ChunkerExtras.

Import Chunker ChunkDoc ChunkerExtraFacts.

(** Every chunk [chunk_text] returns holds at least 16 whitespace-separated
    words: the floor of 20 estimated tokens is [floor(1.3 * words)]. Its
    [tokens] entry is the token count of its text. *)
Theorem chunk_text_min_words txt max_tokens :
  Forall (fun c => (16 <= List.length (split_ws (ch_text c)))%nat /\
                   ch_tokens c = count_tokens (ch_text c))
    (chunk_text txt max_tokens).
Proof.
  apply Forall_forall; intros c Hc.
  destruct (proj1 (Forall_forall _ _) (chunk_out_tokens max_tokens 20 txt) c Hc)
    as [Hle [Ht _]].
  split; [|exact Ht].
  rewrite Ht in Hle; unfold count_tokens in Hle.
  destruct (Nat.le_gt_cases 16 (List.length (split_ws (ch_text c)))) as [H|H]; [exact H|].
  assert (Hd : (Z.of_nat (List.length (split_ws (ch_text c))) * 13 / 10 <= 195 / 10)%Z)
    by (apply Z.div_le_mono; lia).
  change (195 / 10)%Z with 19%Z in Hd; lia.
Qed.

(** Splitting a large section keeps its labels: every chunk carries the
    [section] and [subsection] of a section [split_by_headings] produced. *)
Theorem chunk_keeps_heading_labels max_tokens min_tokens txt :
  Forall (fun c => exists s, In s (split_by_headings txt) /\
                     ch_section c = sec_section s /\ ch_subsection c = sec_subsection s)
    (chunk max_tokens min_tokens txt).
Proof.
  apply Forall_forall; intros c Hc.
  destruct (proj1 (Forall_forall _ _) (chunk_out_tokens max_tokens min_tokens txt) c Hc)
    as [_ [_ [s [Hs [_ [E1 E2]]]]]].
  apply in_flat_map in Hs as [sec [Hsec Hs]].
  destruct (split_large_section_meta _ _ _ Hs) as [M1 M2].
  exists sec; split; [exact Hsec|]; rewrite E1, E2, M1, M2; split; reflexivity.
Qed.

(** [chunk_document] numbers the chunks of [chunk_text] 0, 1, 2, ... in
    order; each chunk id is [doc_id:hash] with the hash of the chunk text,
    so the part of the chunk id before the first colon (the document id the
    search engine falls back to) is [doc_id] when [doc_id] has no colon. *)
Theorem chunk_document_ids hash doc_id txt language max_tokens :
  let out := chunk_document hash doc_id txt language max_tokens in
  map cd_text out = map ch_text (chunk_text txt max_tokens) /\
  map cd_chunk_index out = seq 0 (List.length out) /\
  Forall (fun d => cd_doc_id d = doc_id /\
                   cd_chunk_hash d = hash (cd_text d) /\
                   cd_chunk_id d = (doc_id ++ ":" ++ cd_chunk_hash d)%string /\
                   cd_tokens d = count_tokens (cd_text d) /\
                   (~ In ":"%char (list_ascii_of_string doc_id) ->
                    Py.before_colon (cd_chunk_id d) = doc_id)) out.
Proof.
  intros out; subst out; unfold chunk_document.
  pose proof (Forall_impl _ (fun c H => proj1 (proj2 H)) (chunk_out_tokens max_tokens 20 txt))
    as Htok.
  change (chunk max_tokens 20 txt) with (chunk_text txt max_tokens) in Htok.
  generalize (chunk_text txt max_tokens) Htok; clear Htok.
  intros cs; generalize 0%nat; induction cs as [|c t IH]; intros idx Htok; simpl;
    [split; [|split]; [reflexivity | reflexivity | constructor]|].
  inversion Htok as [|? ? Hc Ht]; subst.
  destruct (IH (S idx) Ht) as [H1 [H2 H3]].
  split; [rewrite H1; reflexivity|]; split; [rewrite H2; reflexivity|].
  constructor; [|exact H3].
  simpl; repeat split; [exact Hc|].
  apply before_colon_app.
Qed.

End ChunkerExtras.

(* ------------------------------------------------------------------ *)
(** ** Link processing *)

Module LinkExtraFacts.

Import Py PyFacts Link LinkFacts.

(** The part of a record that [process_links] reads. *)
Definition strip_links (r : record) : record :=
  {| r_slug := r_slug r; r_aliases := r_aliases r; r_title := r_title r;
     r_full_text := r_full_text r; r_links := []; r_backlinks := [] |}.

Definition proj {B} (P : record -> B) (ur : string * record) : string * B := (fst ur, P (snd ur)).

Lemma map_proj_set {B} (P : record -> B) t v d old :
  get t d = Some old -> P v = P old -> map (proj P) (set t v d) = map (proj P) d.
Proof.
  induction d as [|[k' v'] rest IH]; simpl; intros Hg Hp; [discriminate|].
  destruct (String.eqb t k').
  - injection Hg as <-; unfold proj; simpl; rewrite Hp; reflexivity.
  - simpl; rewrite IH by assumption; reflexivity.
Qed.

Section Proj.

Variable B : Type.
Variable P : record -> B.
Hypothesis HP : forall bl r, P (add_backlink_to bl r) = P r.

Lemma add_backlink_proj src recs l :
  map (proj P) (add_backlink src recs l) = map (proj P) recs.
Proof.
  unfold add_backlink.
  destruct (l_target l) as [t|]; [|reflexivity].
  destruct (l_resolved l && negb (String.eqb t "")); [|reflexivity].
  destruct (get t recs) as [tr|] eqn:E; [|reflexivity].
  apply (map_proj_set P t _ recs tr E), HP.
Qed.

Lemma fold_items_proj items recs :
  map (proj P) (fold_left add_backlinks_of items recs) = map (proj P) recs.
Proof.
  revert recs; induction items as [|it items IH]; intros recs; [reflexivity|].
  cbn [fold_left]; rewrite IH; unfold add_backlinks_of.
  generalize (snd it); intros ls; revert recs.
  induction ls as [|l ls IHl]; intros recs; [reflexivity|].
  cbn [fold_left]; rewrite IHl; apply add_backlink_proj.
Qed.

End Proj.

Lemma build_lookup_maps_strip rs :
  build_lookup_maps (map (proj strip_links) rs) = build_lookup_maps rs.
Proof.
  unfold build_lookup_maps.
  generalize {| lk_id := []; lk_slug := []; lk_alias := []; lk_title := [] |}.
  induction rs as [|[u r] rs IH]; intros lk; [reflexivity|].
  simpl; apply IH.
Qed.

Lemma with_links_strip lk rs :
  map (with_links lk) (map (proj strip_links) rs) = map (with_links lk) rs.
Proof. induction rs as [|[u r] rs IH]; simpl; [reflexivity|]; rewrite IH; reflexivity. Qed.

Lemma process_links_strip rs : process_links (map (proj strip_links) rs) = process_links rs.
Proof.
  unfold process_links; rewrite build_lookup_maps_strip, with_links_strip; reflexivity.
Qed.

Lemma strip_with_links lk rs :
  map (proj strip_links) (map (with_links lk) rs) = map (proj strip_links) rs.
Proof. induction rs as [|[u r] rs IH]; simpl; [reflexivity|]; rewrite IH; reflexivity. Qed.

Lemma links_proj_flat l :
  flat_map (fun ur => r_links (snd ur)) l = flat_map snd (map (proj r_links) l).
Proof. induction l as [|[u r] t IH]; simpl; [reflexivity|]; rewrite IH; reflexivity. Qed.

Lemma resolve_link_in_keys rs tgt u k :
  resolve_link tgt (build_lookup_maps rs) = (Some u, k) -> In u (map fst rs).
Proof.
  unfold resolve_link.
  destruct (get _ (lk_id _)) as [x|] eqn:E1.
  { intros H; injection H as <- _; apply lk_id_get in E1 as [-> H]; exact H. }
  destruct (get _ (lk_slug _)) as [x|] eqn:E2.
  { intros H; injection H as <- _; apply lk_slug_get in E2 as [r [H _]].
    exact (in_map fst _ _ H). }
  destruct (get _ (lk_alias _)) as [x|] eqn:E3.
  { intros H; injection H as <- _; apply lk_alias_get in E3 as [r [a [H _]]].
    exact (in_map fst _ _ H). }
  destruct (get _ (lk_title _)) as [x|] eqn:E4; [|discriminate].
  intros H; injection H as <- _; apply lk_title_get in E4 as [r [H _]].
  exact (in_map fst _ _ H).
Qed.

Lemma link_of_target rs wl t :
  l_target (link_of (build_lookup_maps rs) wl) = Some t -> In t (map fst rs).
Proof.
  unfold link_of; destruct (resolve_link _ _) as [[x|] k] eqn:E; simpl; [|discriminate].
  intros H; injection H as <-; exact (resolve_link_in_keys _ _ _ _ E).
Qed.

Lemma link_of_resolved lk wl :
  l_resolved (link_of lk wl) = true <-> exists t, l_target (link_of lk wl) = Some t.
Proof.
  unfold link_of; destruct (resolve_link _ _) as [[x|] k]; simpl.
  - split; [eauto | reflexivity].
  - split; [discriminate | intros [t H]; discriminate].
Qed.

(** Backlinks stored in a record state all satisfy [Q]. *)
Definition backlinks_ok (Q : link -> Prop) (recs : dict record) : Prop :=
  forall u, match get u recs with Some r => Forall Q (r_backlinks r) | None => True end.

Lemma add_backlink_ok (Q : link -> Prop) src recs l :
  (forall l', l_target l' = Some src -> l_resolved l' = true -> Q l') ->
  backlinks_ok Q recs -> backlinks_ok Q (add_backlink src recs l).
Proof.
  intros HQ Hok u; unfold add_backlink.
  destruct (l_target l) as [t|]; [|apply Hok].
  destruct (l_resolved l && negb (String.eqb t "")); [|apply Hok].
  destruct (get t recs) as [tr|] eqn:E; [|apply Hok].
  rewrite get_set_cases; destruct (String.eqb_spec u t) as [->|_]; [|apply Hok].
  specialize (Hok t); rewrite E in Hok; simpl.
  apply Forall_app; split; [exact Hok|].
  constructor; [apply HQ; reflexivity | constructor].
Qed.

Lemma fold_items_ok (Q : link -> Prop) items recs :
  Forall (fun it => forall l', l_target l' = Some (fst it) -> l_resolved l' = true -> Q l') items ->
  backlinks_ok Q recs -> backlinks_ok Q (fold_left add_backlinks_of items recs).
Proof.
  revert recs; induction items as [|it items IH]; intros recs Hit Hok; [exact Hok|].
  inversion Hit as [|? ? Hi Ht]; subst.
  cbn [fold_left]; apply IH; [exact Ht|].
  unfold add_backlinks_of; generalize (snd it); intros ls; revert recs Hok.
  induction ls as [|l ls IHl]; intros recs Hok; [exact Hok|].
  cbn [fold_left]; apply IHl, add_backlink_ok; assumption.
Qed.

Lemma chars_strip (l : list ascii) c : In c (Chunker.strip l) -> In c l.
Proof.
  assert (Hl : forall s, In c (Chunker.lstrip s) -> In c s).
  { induction s as [|x s IH]; simpl; [tauto|].
    destruct (Chunker.is_space x); [intros H; right; exact (IH H) | tauto]. }
  unfold Chunker.strip; intros H; apply in_rev, Hl, in_rev, Hl in H; exact H.
Qed.

Lemma take_while_chars p l c : In c (Chunker.take_while p l) -> p c = true.
Proof.
  induction l as [|x l IH]; simpl; [tauto|].
  destruct (p x) eqn:E; [|intros []].
  intros [<-|H]; [exact E | exact (IH H)].
Qed.

Lemma take_while_prefix p l : firstn (List.length (Chunker.take_while p l)) l = Chunker.take_while p l.
Proof.
  induction l as [|x l IH]; simpl; [reflexivity|].
  destruct (p x); simpl; [rewrite IH|]; reflexivity.
Qed.

Lemma firstn_close m (r rest : list ascii) x y :
  skipn m r = x :: y :: rest -> firstn (m + 2) r = firstn m r ++ [x; y].
Proof.
  revert r; induction m as [|m IH]; intros r H; simpl in *.
  - rewrite H; reflexivity.
  - destruct r as [|a r]; [discriminate|]; simpl; rewrite (IH r H); reflexivity.
Qed.

Lemma match_wikilink_shape s g1 g2 n :
  match_wikilink s = Some (g1, g2, n) ->
  (forall c, In c g1 -> c <> "]"%char /\ c <> "|"%char) /\
  exists body, firstn n s = ("[" :: "[" :: body ++ ["]"; "]"])%char.
Proof.
  intros H.
  destruct s as [|a1 [|a2 r]]; [discriminate H| |].
  { destruct a1 as [[] [] [] [] [] [] [] []]; discriminate H. }
  destruct a1 as [[] [] [] [] [] [] [] []]; try discriminate H.
  destruct a2 as [[] [] [] [] [] [] [] []]; try discriminate H.
  revert H; unfold match_wikilink.
  set (p1 := fun c => negb (is_rbracket c || is_pipe c)).
  assert (Hg1 : forall c, In c (Chunker.take_while p1 r) -> c <> "]"%char /\ c <> "|"%char).
  { intros c Hc; apply take_while_chars in Hc; subst p1; unfold is_rbracket, is_pipe in Hc.
    destruct (Ascii.eqb_spec c "]"), (Ascii.eqb_spec c "|"); simpl in Hc; try discriminate Hc.
    split; assumption. }
  pose proof (take_while_prefix p1 r) as Hpre.
  destruct (Chunker.take_while p1 r) as [|c0 g0] eqn:Eg; [intros H; discriminate H|].
  set (g := c0 :: g0) in *.
  destruct (skipn (List.length g) r) as [|b1 r1] eqn:Es; [intros H; discriminate H|].
  destruct (Ascii.eqb_spec b1 "|") as [->|Hb1].
  - set (p2 := fun c => negb (is_rbracket c)).
    pose proof (take_while_prefix p2 r1) as Hpre2.
    destruct (Chunker.take_while p2 r1) as [|d0 e0] eqn:Eg2; [intros H; discriminate H|].
    destruct (skipn (List.length (d0 :: e0)) r1) as [|x1 [|x2 rest]] eqn:Es2;
      [intros H; discriminate H
      | destruct x1 as [[] [] [] [] [] [] [] []]; intros H; discriminate H |].
    destruct (Ascii.eqb_spec x1 "]") as [->|Hx1];
      [|destruct x1 as [[] [] [] [] [] [] [] []]; try (intros H; discriminate H); congruence].
    destruct (Ascii.eqb_spec x2 "]") as [->|Hx2];
      [|destruct x2 as [[] [] [] [] [] [] [] []]; try (intros H; discriminate H); congruence].
    intros H; injection H as <- <- <-; split; [exact Hg1|].
    assert (Hs : skipn (List.length g + 1 + List.length (d0 :: e0)) r = ("]" :: "]" :: rest)%char).
    { replace (List.length g + 1 + List.length (d0 :: e0))%nat
        with (List.length (d0 :: e0) + (1 + List.length g))%nat by lia.
      rewrite <- skipn_skipn, <- skipn_skipn, Es; exact Es2. }
    exists (firstn (List.length g + 1 + List.length (d0 :: e0)) r).
    match goal with |- firstn ?N _ = _ =>
      replace N with (S (S ((List.length g + 1 + List.length (d0 :: e0)) + 2)))
        by (subst g; simpl; lia) end.
    do 2 rewrite firstn_cons; rewrite (firstn_close _ _ _ _ _ Hs); reflexivity.
  - destruct b1 as [[] [] [] [] [] [] [] []]; try (intros H; discriminate H); try congruence.
    destruct r1 as [|x2 rest]; [intros H; discriminate H|].
    destruct x2 as [[] [] [] [] [] [] [] []]; try (intros H; discriminate H).
    intros H; injection H as <- <- <-; split; [exact Hg1|].
    exists (firstn (List.length g) r).
    match goal with |- firstn ?N _ = _ =>
      replace N with (S (S (List.length g + 2))) by (subst g; simpl; lia) end.
    do 2 rewrite firstn_cons; rewrite (firstn_close _ _ _ _ _ Es); reflexivity.
Qed.

End LinkExtraFacts.

Module LinkExtras.

Import Py PyFacts Link LinkFacts LinkExtraFacts.

(** [process_links] keeps the record ids and leaves no dangling reference:
    a forward link is resolved exactly when it has a target, and that target
    is an existing record id; every backlink is resolved and names an
    existing record id as its source. *)
Theorem process_links_no_dangling rs :
  map fst (fst (fst (process_links rs))) = map fst rs /\
  forall u, match get u (fst (fst (process_links rs))) with
            | Some r =>
                Forall (fun l => (l_resolved l = true <-> exists t, l_target l = Some t) /\
                                 (forall t, l_target l = Some t -> In t (map fst rs))) (r_links r) /\
                Forall (fun l => l_resolved l = true /\
                                 exists s, l_target l = Some s /\ In s (map fst rs)) (r_backlinks r)
            | None => True
            end.
Proof.
  unfold process_links; cbn [fst].
  set (lk := build_lookup_maps rs).
  set (recs1 := map (with_links lk) rs).
  set (items := map (fun ur => (fst ur, r_links (snd ur))) recs1).
  assert (Hkeys : map fst (fold_left add_backlinks_of items recs1) = map fst rs).
  { transitivity (map fst recs1); [|apply keys_map_with_links].
    pose proof (fold_items_proj _ strip_links (fun bl r => eq_refl) items recs1) as H.
    apply (f_equal (map fst)) in H; rewrite !map_map in H; exact H. }
  split; [exact Hkeys|].
  assert (Hbl : backlinks_ok (fun l => l_resolved l = true /\
                              exists s, l_target l = Some s /\ In s (map fst rs))
                  (fold_left add_backlinks_of items recs1)).
  { apply fold_items_ok.
    - apply Forall_forall; intros [src ls] Hit l' Ht Hr; cbn [fst] in Ht.
      split; [exact Hr|]; exists src; split; [exact Ht|].
      subst items; apply in_map_iff in Hit as [[u r] [E Hin]]; injection E as <- _.
      apply (in_map fst) in Hin; subst recs1; rewrite keys_map_with_links in Hin; exact Hin.
    - intros u; subst recs1; rewrite get_map_with_links.
      destruct (get u rs) as [r|]; simpl; [constructor | exact I]. }
  intros u; specialize (Hbl u).
  pose proof (fold_items_links items recs1 u) as Hl.
  destruct (get u (fold_left add_backlinks_of items recs1)) as [r|]; [|exact I].
  split; [|exact Hbl].
  subst recs1; rewrite get_map_with_links in Hl.
  destruct (get u rs) as [r0|]; [|discriminate].
  injection Hl as ->; simpl.
  apply Forall_forall; intros l Hin; apply in_map_iff in Hin as [wl [<- _]].
  split; [apply link_of_resolved | apply link_of_target].
Qed.

(** The counts [process_links] returns describe the links it stores:
    [total_links] is the number of forward links stored in the returned
    records, which is the number of wikilinks in their texts, and
    [broken_links] the number of those that are unresolved. *)
Theorem process_links_counts rs :
  let stored := flat_map (fun ur => r_links (snd ur)) (fst (fst (process_links rs))) in
  snd (fst (process_links rs)) = List.length stored /\
  snd (process_links rs) = List.length (filter (fun l => negb (l_resolved l)) stored) /\
  snd (fst (process_links rs)) =
    fold_right (fun ur n => (List.length (extract_wikilinks (r_full_text (snd ur))) + n)%nat) 0%nat rs /\
  (snd (process_links rs) <= snd (fst (process_links rs)))%nat.
Proof.
  intros stored; subst stored; unfold process_links; cbn [fst snd].
  set (lk := build_lookup_maps rs).
  set (recs1 := map (with_links lk) rs).
  set (items := map (fun ur => (fst ur, r_links (snd ur))) recs1).
  assert (Hst : flat_map (fun ur => r_links (snd ur)) (fold_left add_backlinks_of items recs1) =
                flat_map (fun ur => r_links (snd ur)) recs1).
  { rewrite !links_proj_flat; f_equal; apply fold_items_proj; reflexivity. }
  rewrite Hst; split; [reflexivity|]; split; [reflexivity|]; split.
  - clear Hst items; subst recs1; clearbody lk; induction rs as [|[u r] rs IH]; simpl; [reflexivity|].
    rewrite length_app, length_map, IH; reflexivity.
  - apply Nat.le_trans with (List.length (filter (fun _ => true) (flat_map (fun ur => r_links (snd ur)) recs1))).
    + generalize (flat_map (fun ur => r_links (snd ur)) recs1); intros ls.
      induction ls as [|l ls IH]; simpl; [lia|].
      destruct (negb (l_resolved l)); simpl; lia.
    + rewrite filter_true; lia.
Qed.

(** [process_links] is idempotent: run again on its own output it returns
    the same records and the same counts, since it clears and recomputes
    every link from the texts, slugs, aliases and titles it keeps. *)
Theorem process_links_idempotent rs :
  process_links (fst (fst (process_links rs))) = process_links rs.
Proof.
  transitivity (process_links (map (proj strip_links) (fst (fst (process_links rs)))));
    [symmetry; apply process_links_strip|].
  replace (map (proj strip_links) (fst (fst (process_links rs))))
    with (map (proj strip_links) rs); [apply process_links_strip|].
  symmetry; unfold process_links; cbn [fst].
  rewrite fold_items_proj by reflexivity.
  apply strip_with_links.
Qed.

Lemma scan_wikilinks_shape fuel txt s pos :
  Forall (fun wl => ~ In "]"%char (list_ascii_of_string (wl_target wl)) /\
                    ~ In "|"%char (list_ascii_of_string (wl_target wl)) /\
                    exists body, list_ascii_of_string (wl_raw wl) =
                                 ("[" :: "[" :: body ++ ["]"; "]"])%char)
    (scan_wikilinks fuel txt s pos).
Proof.
  revert s pos; induction fuel as [|f IH]; intros s' pos; simpl; [constructor|].
  destruct s' as [|c t]; [constructor|].
  destruct (match_wikilink (c :: t)) as [[[g1 g2] n]|] eqn:E; [|apply IH].
  destruct (match_wikilink_shape _ _ _ _ E) as [Hg [body Hb]].
  constructor; [|apply IH]; cbn [wl_target wl_raw].
  rewrite !list_ascii_of_string_of_list_ascii.
  split; [intros H; apply chars_strip, Hg in H; tauto|].
  split; [intros H; apply chars_strip, Hg in H; tauto|].
  exists body; exact Hb.
Qed.

(** Every wikilink [extract_wikilinks] finds has a target free of [']'] and
    ['|'], and its raw text is the whole [[[...]]] match. *)
Theorem extract_wikilinks_shape s :
  Forall (fun wl => ~ In "]"%char (list_ascii_of_string (wl_target wl)) /\
                    ~ In "|"%char (list_ascii_of_string (wl_target wl)) /\
                    exists body, list_ascii_of_string (wl_raw wl) =
                                 ("[" :: "[" :: body ++ ["]"; "]"])%char)
    (extract_wikilinks s).
Proof. apply scan_wikilinks_shape. Qed.

End LinkExtras.

Module LinkLookupExtras.

Import Py PyFacts Link LinkFacts.

Lemma add_aliases_keep u al d k v :
  ~ In k (map lower al) -> get k d = Some v -> get k (add_aliases u al d) = Some v.
Proof.
  revert d; induction al as [|a al IH]; intros d Hn Hg; [exact Hg|].
  cbn; apply IH; [intros H; apply Hn; right; exact H|].
  rewrite get_set_cases; destruct (String.eqb_spec k (lower a)) as [->|_]; [|exact Hg].
  exfalso; apply Hn; left; reflexivity.
Qed.

Lemma add_aliases_same u al d k :
  get k d = Some u -> get k (add_aliases u al d) = Some u.
Proof.
  revert d; induction al as [|a al IH]; intros d Hg; [exact Hg|].
  cbn; apply IH; rewrite get_set_cases; destruct (String.eqb k (lower a)); [reflexivity|exact Hg].
Qed.

Lemma add_aliases_own u al d a :
  In a al -> get (lower a) (add_aliases u al d) = Some u.
Proof.
  revert d; induction al as [|a' al IH]; intros d Ha; [destruct Ha|].
  cbn; destruct Ha as [<-|Ha]; [|apply IH, Ha].
  apply add_aliases_same, get_set_same.
Qed.

Lemma fold_lookup_keep rs2 lk k u :
  (get k (lk_slug lk) = Some u -> ~ In k (map (fun ur => r_slug (snd ur)) rs2) ->
   get k (lk_slug (fold_left lookup_step rs2 lk)) = Some u) /\
  (get k (lk_alias lk) = Some u ->
   ~ In k (flat_map (fun ur => map lower (r_aliases (snd ur))) rs2) ->
   get k (lk_alias (fold_left lookup_step rs2 lk)) = Some u) /\
  (get k (lk_title lk) = Some u -> ~ In k (map (fun ur => lower (r_title (snd ur))) rs2) ->
   get k (lk_title (fold_left lookup_step rs2 lk)) = Some u).
Proof.
  revert lk; induction rs2 as [|[u' r'] rs2 IH]; intros lk; cbn [fold_left]; [tauto|].
  destruct (IH (lookup_step lk (u', r'))) as [IH1 [IH2 IH3]].
  cbn [map flat_map snd] in *.
  split; [|split]; intros Hg Hn.
  - apply IH1; [|intros H; apply Hn; right; exact H]; cbn [lookup_step lk_slug].
    rewrite get_set_cases; destruct (String.eqb_spec k (r_slug r')) as [->|_];
      [exfalso; apply Hn; left; reflexivity | exact Hg].
  - rewrite in_app_iff in Hn.
    apply IH2; [|tauto]; cbn [lookup_step lk_alias]; apply add_aliases_keep; [tauto | exact Hg].
  - apply IH3; [|intros H; apply Hn; right; exact H]; cbn [lookup_step lk_title].
    rewrite get_set_cases; destruct (String.eqb_spec k (lower (r_title r'))) as [->|_];
      [exfalso; apply Hn; left; reflexivity | exact Hg].
Qed.

(** [build_lookup_maps]: a slug, an alias or a title maps to the last
    record, in dict order, that has it; so a wikilink to a slug, alias or
    title shared by several records resolves to the last of them. *)
Theorem lookup_last_record_wins rs1 u r rs2 :
  let lk := build_lookup_maps (rs1 ++ (u, r) :: rs2) in
  (~ In (r_slug r) (map (fun ur => r_slug (snd ur)) rs2) ->
   get (r_slug r) (lk_slug lk) = Some u) /\
  (forall a, In a (r_aliases r) ->
   ~ In (lower a) (flat_map (fun ur => map lower (r_aliases (snd ur))) rs2) ->
   get (lower a) (lk_alias lk) = Some u) /\
  (~ In (lower (r_title r)) (map (fun ur => lower (r_title (snd ur))) rs2) ->
   get (lower (r_title r)) (lk_title lk) = Some u).
Proof.
  intros lk; subst lk; unfold build_lookup_maps; rewrite fold_left_app; cbn [fold_left].
  set (lk0 := fold_left lookup_step rs1 _).
  split; [|split].
  - intros Hn; apply (proj1 (fold_lookup_keep rs2 _ _ u)); [|exact Hn].
    cbn [lookup_step lk_slug]; apply get_set_same.
  - intros a Ha Hn; apply (proj1 (proj2 (fold_lookup_keep rs2 _ _ u))); [|exact Hn].
    cbn [lookup_step lk_alias]; apply add_aliases_own, Ha.
  - intros Hn; apply (proj2 (proj2 (fold_lookup_keep rs2 _ _ u))); [|exact Hn].
    cbn [lookup_step lk_title]; apply get_set_same.
Qed.

End LinkLookupExtras.

(* ------------------------------------------------------------------ *)
(** ** Relevance score ranges *)

Module RelevanceExtraFacts.

Import Relevance RelevanceFacts.
Local Open Scope R_scope.

Lemma clamp01_id x : 0 <= x <= 1 -> clamp01 x = x.
Proof.
  intros H; unfold clamp01, py_max, py_min.
  destruct (Rlt_dec x 1); destruct (Rlt_dec 0 _); lra.
Qed.

Lemma clamp01_ge1 x : 1 <= x -> clamp01 x = 1.
Proof.
  intros H; unfold clamp01, py_max, py_min.
  destruct (Rlt_dec x 1); [lra|]; destruct (Rlt_dec 0 1); lra.
Qed.

Lemma clamp01_mono x y : x <= y -> clamp01 x <= clamp01 y.
Proof.
  intros H; unfold clamp01.
  assert (Hab : py_min 1 x <= py_min 1 y)
    by (unfold py_min; destruct (Rlt_dec x 1), (Rlt_dec y 1); lra).
  revert Hab; generalize (py_min 1 x) (py_min 1 y); intros a b Hab.
  unfold py_max; destruct (Rlt_dec 0 a), (Rlt_dec 0 b); lra.
Qed.

Lemma recency_arg now u hl : 0 < hl -> - ((now - u) / 86400) / hl = (u - now) / (86400 * hl).
Proof. intros H; field; lra. Qed.

Lemma exp_le_mono x y : x <= y -> exp x <= exp y.
Proof. intros H; destruct (Req_dec x y) as [->|Hne]; [lra|]; left; apply exp_increasing; lra. Qed.

Lemma ln101_pos : 0 < ln (1 + 100).
Proof. rewrite <- ln_1; apply ln_increasing; lra. Qed.

Lemma exp_minus_1_lt_half : exp (-1) < / 2.
Proof.
  assert (H : 2 < exp 1) by (pose proof (exp_ineq1 1 ltac:(lra)); lra).
  replace (-1) with (- (1)) by lra; rewrite exp_Ropp; apply Rinv_lt_contravar; lra.
Qed.

Lemma quality_word_score_bounds n : 0 <= py_min 1 (INR n / 2000) <= 1.
Proof.
  unfold py_min; pose proof (pos_INR n).
  assert (0 <= INR n / 2000) by (unfold Rdiv; apply Rmult_le_pos; [lra | left; apply Rinv_0_lt_compat; lra]).
  destruct (Rlt_dec (INR n / 2000) 1); lra.
Qed.

Lemma quality_score_bounds r : 0.1 <= compute_quality_score r <= 0.9.
Proof.
  unfold compute_quality_score.
  pose proof (quality_word_score_bounds (List.length (Chunker.split_ws (full_text r)))) as Hw.
  revert Hw; generalize (py_min 1 (INR (List.length (Chunker.split_ws (full_text r))) / 2000)).
  intros w Hw.
  destruct (Nat.ltb 0 (List.length (links r))); rewrite clamp01_id by lra; lra.
Qed.

Lemma user_score_bounds r : 0 <= compute_user_score r <= 0.8.
Proof.
  unfold compute_user_score.
  destruct (human_edited r) as [[]|], (agent_reviewed r) as [[]|];
    rewrite clamp01_id by lra; lra.
Qed.

End RelevanceExtraFacts.

Module RelevanceExtras.

Import Relevance RelevanceFacts RelevanceExtraFacts.
Local Open Scope R_scope.

(** [compute_recency_score] with a positive half-life: a record updated
    at or after [now] scores 1; a record exactly one half-life old scores
    [exp(-1)], below 0.5; and an older update never scores higher than a
    newer one. *)
Theorem recency_score_decay hl r1 r2 now :
  (0 < hl -> now <= updated r1 ->
   forall v, compute_recency_score hl r1 now = Some v -> v = 1) /\
  (0 < hl -> now - updated r1 = 86400 * hl ->
   compute_recency_score hl r1 now = Some (exp (-1)) /\ exp (-1) < / 2) /\
  (0 < hl -> updated r1 <= updated r2 ->
   forall v1 v2, compute_recency_score hl r1 now = Some v1 ->
                 compute_recency_score hl r2 now = Some v2 -> v1 <= v2).
Proof.
  unfold compute_recency_score; split; [|split].
  - intros Hh Hu v.
    destruct (Req_dec_T hl 0) as [E|_]; [lra|].
    destruct (Rlt_dec max_float _); [discriminate|].
    intros H; injection H as <-; apply clamp01_ge1.
    rewrite recency_arg by exact Hh; rewrite <- exp_0; apply exp_le_mono.
    unfold Rdiv; apply Rmult_le_pos; [lra | left; apply Rinv_0_lt_compat; lra].
  - intros Hh Ha.
    destruct (Req_dec_T hl 0) as [E|_]; [lra|].
    replace (- ((now - updated r1) / 86400) / hl) with (-1) by (rewrite Ha; field; lra).
    pose proof exp_minus_1_lt_half as Hh2; pose proof max_float_ge_1.
    destruct (Rlt_dec max_float (exp (-1))); [lra|].
    split; [|exact Hh2].
    rewrite clamp01_id; [reflexivity|]; split; [left; apply exp_pos | lra].
  - intros Hh Hu v1 v2.
    destruct (Req_dec_T hl 0) as [E|_]; [lra|].
    destruct (Rlt_dec max_float _); [discriminate|].
    destruct (Rlt_dec max_float _); [discriminate|].
    intros H1 H2; injection H1 as <-; injection H2 as <-.
    apply clamp01_mono, exp_le_mono; rewrite !recency_arg by exact Hh.
    unfold Rdiv; apply Rmult_le_compat_r; [left; apply Rinv_0_lt_compat; lra | lra].
Qed.

(** [compute_link_score]: 0 without backlinks, 1 from 100 backlinks on,
    strictly between 0 and 1 for 1 to 99 backlinks, and never lower for a
    record with more backlinks. *)
Theorem link_score_shape r1 r2 :
  (List.length (backlinks r1) = 0%nat -> compute_link_score r1 = 0) /\
  ((100 <= List.length (backlinks r1))%nat -> compute_link_score r1 = 1) /\
  ((1 <= List.length (backlinks r1) < 100)%nat -> 0 < compute_link_score r1 < 1) /\
  ((List.length (backlinks r1) <= List.length (backlinks r2))%nat ->
   compute_link_score r1 <= compute_link_score r2).
Proof.
  pose proof ln101_pos as Hl.
  assert (Hfrac : forall n, (1 <= n)%nat -> 0 < ln (1 + INR n) / ln (1 + 100)).
  { intros n Hn; apply Rdiv_lt_0_compat; [|exact Hl].
    rewrite <- ln_1; apply ln_increasing; [lra|].
    apply le_INR in Hn; simpl in Hn; lra. }
  unfold compute_link_score; split; [|split; [|split]].
  - intros ->; reflexivity.
  - intros Hn; destruct (Nat.eqb_spec (List.length (backlinks r1)) 0) as [E|_]; [lia|].
    apply clamp01_ge1.
    apply le_INR in Hn; replace (INR 100) with 100 in Hn by (simpl; lra).
    apply (Rmult_le_reg_r (ln (1 + 100))); [exact Hl|].
    unfold Rdiv; rewrite Rmult_assoc, Rinv_l, Rmult_1_l, Rmult_1_r by lra.
    destruct (Req_dec (INR (List.length (backlinks r1))) 100) as [E|Hne];
      [rewrite E; lra | left; apply ln_increasing; lra].
  - intros Hn; destruct (Nat.eqb_spec (List.length (backlinks r1)) 0) as [E|_]; [lia|].
    assert (Hlt : ln (1 + INR (List.length (backlinks r1))) / ln (1 + 100) < 1).
    { apply (Rmult_lt_reg_r (ln (1 + 100))); [exact Hl|].
      unfold Rdiv; rewrite Rmult_assoc, Rinv_l, Rmult_1_l, Rmult_1_r by lra.
      apply ln_increasing; [pose proof (pos_INR (List.length (backlinks r1))); lra|].
      assert (INR (List.length (backlinks r1)) < INR 100) by (apply lt_INR; lia).
      simpl in H; lra. }
    pose proof (Hfrac _ (proj1 Hn)).
    rewrite clamp01_id by lra; lra.
  - intros Hle.
    destruct (Nat.eqb_spec (List.length (backlinks r1)) 0) as [E1|E1];
      [destruct (Nat.eqb (List.length (backlinks r2)) 0); [lra | apply clamp01_bounds]|].
    destruct (Nat.eqb_spec (List.length (backlinks r2)) 0) as [E2|E2]; [lia|].
    apply clamp01_mono; unfold Rdiv; apply Rmult_le_compat_r; [left; apply Rinv_0_lt_compat; lra|].
    apply le_INR in Hle.
    destruct (Req_dec (INR (List.length (backlinks r1))) (INR (List.length (backlinks r2))))
      as [E|Hne]; [rewrite E; lra|].
    left; apply ln_increasing; [pose proof (pos_INR (List.length (backlinks r1))); lra | lra].
Qed.

(** [compute_quality_score] never goes below 0.1 (the media placeholder
    alone) nor above 0.9. *)
Theorem quality_score_range r : 0.1 <= compute_quality_score r <= 0.9.
Proof. apply quality_score_bounds. Qed.

(** With the default weights (0.4, 0.3, 0.2, 0.1), a relevance score
    [compute_relevance_score] returns lies in [0.02, 0.96]: the final clamp
    never cuts, and neither 0 nor 1 is reached. *)
Theorem default_relevance_range hl r now :
  match compute_relevance_score 0.4 0.3 0.2 0.1 hl r now with
  | Some v => 0.02 <= v <= 0.96
  | None => True
  end.
Proof.
  unfold compute_relevance_score.
  destruct (compute_recency_score hl r now) as [rec|] eqn:E; [|exact I].
  assert (Hrec : 0 <= rec <= 1).
  { unfold compute_recency_score in E.
    destruct (Req_dec_T hl 0); [discriminate|].
    destruct (Rlt_dec max_float _); [discriminate|].
    injection E as <-; apply clamp01_bounds. }
  assert (Hl : 0 <= compute_link_score r <= 1).
  { unfold compute_link_score; destruct (Nat.eqb _ 0); [lra | apply clamp01_bounds]. }
  pose proof (quality_score_bounds r) as Hq.
  pose proof (user_score_bounds r) as Hu.
  rewrite clamp01_id by lra; lra.
Qed.


End RelevanceExtras.

(* ------------------------------------------------------------------ *)
(** ** Cosine scores *)

Module EmbeddingsExtraFacts.

Import Embeddings EmbeddingsFacts.
Local Open Scope R_scope.

Lemma dot_cons x u y v : dot (x :: u) (y :: v) = x * y + dot u v.
Proof. reflexivity. Qed.

Lemma dot_bound u v : 2 * Rabs (dot u v) <= sumsq u + sumsq v.
Proof.
  revert v; induction u as [|x u IH]; intros v.
  - unfold dot; cbn. rewrite Rabs_R0. pose proof (sumsq_nonneg v). lra.
  - destruct v as [|y v].
    + pose proof (sumsq_nonneg (x :: u)). unfold dot; cbn in *. rewrite Rabs_R0. lra.
    + rewrite dot_cons. cbn [sumsq].
      specialize (IH v).
      pose proof (Rabs_triang (x * y) (dot u v)).
      assert (2 * Rabs (x * y) <= x * x + y * y).
      { rewrite Rabs_mult. pose proof (Rle_0_sqr (Rabs x - Rabs y)) as Hs. unfold Rsqr in Hs.
        assert (Rabs x * Rabs x = x * x) by (rewrite <- Rabs_mult; apply Rabs_pos_eq; apply Rle_0_sqr).
        assert (Rabs y * Rabs y = y * y) by (rewrite <- Rabs_mult; apply Rabs_pos_eq; apply Rle_0_sqr).
        lra. }
      lra.
Qed.

Lemma sumsq_of_norm v : norm v = 1 -> sumsq v = 1.
Proof.
  unfold norm; intros H.
  rewrite <- (sqrt_sqrt (sumsq v)) by apply sumsq_nonneg. rewrite H. ring.
Qed.

Lemma sumsq_of_norm0 v : norm v = 0 -> sumsq v = 0.
Proof.
  unfold norm; intros H.
  rewrite <- (sqrt_sqrt (sumsq v)) by apply sumsq_nonneg. rewrite H. ring.
Qed.

Lemma normalize_row_sumsq v : sumsq (normalize_row v) <= 1.
Proof.
  destruct (Req_dec_T (norm v) 0) as [Hz|Hnz].
  - rewrite normalize_row_zero by exact Hz. rewrite sumsq_of_norm0 by exact Hz. lra.
  - rewrite sumsq_of_norm by (apply norm_normalize_row; exact Hnz). lra.
Qed.

Lemma query_normed_sumsq q : norm q <> 0 -> sumsq (map (fun x => x / norm q) q) = 1.
Proof.
  intros Hn. rewrite sumsq_scale.
  assert (E : sumsq q = norm q * norm q) by (unfold norm; rewrite sqrt_sqrt by apply sumsq_nonneg; reflexivity).
  rewrite E. field. exact Hn.
Qed.

End EmbeddingsExtraFacts.

Module EmbeddingsExtras.

Import Embeddings EmbeddingsFacts EmbeddingsExtraFacts.
Local Open Scope R_scope.

(** [_cosine_similarity] against the matrix [_load_chunk_embeddings]
    returns gives one score per row, in [-1, 1], and as many scores as
    loaded chunk hashes unless the matrix has no entries at all
    ([size == 0], when every loaded vector is empty and no score is
    returned). *)
Theorem cosine_scores_bounded files q :
  match load_chunk_embeddings files with
  | Some (hashes, mat) =>
      match cosine_similarity q mat with
      | Some sims =>
          Forall (fun s => -1 <= s <= 1) sims /\
          (size mat <> 0%nat -> List.length sims = List.length hashes)
      | None => True
      end
  | None => True
  end.
Proof.
  unfold load_chunk_embeddings.
  destruct (loaded files) as [|[h0 v0] rest] eqn:E.
  - cbn. split; [constructor | intros H; contradiction].
  - destruct (forallb _ _); [|exact I].
    set (mat := map (fun p => normalize_row (snd p)) ((h0, v0) :: rest)).
    assert (Hrows : forall row, In row mat -> sumsq row <= 1).
    { intros row Hin; subst mat; apply in_map_iff in Hin.
      destruct Hin as [p [<- _]]; apply normalize_row_sumsq. }
    assert (Hlen : List.length mat = List.length (map fst ((h0, v0) :: rest)))
      by (subst mat; rewrite !length_map; reflexivity).
    clearbody mat.
    unfold cosine_similarity.
    destruct (Nat.eqb_spec (size mat) 0) as [Hs|Hs].
    + split; [constructor | intros H; contradiction].
    + destruct (Req_dec_T (norm q) 0) as [Hq|Hq].
      * split.
        -- apply Forall_forall; intros s Hin; apply repeat_spec in Hin; lra.
        -- intros _; rewrite repeat_length; exact Hlen.
      * destruct (forallb _ _); [|exact I].
        split.
        -- apply Forall_forall; intros s Hin; apply in_map_iff in Hin.
           destruct Hin as [row [<- Hrow]].
           pose proof (dot_bound row (map (fun x => x / norm q) q)) as Hb.
           rewrite query_normed_sumsq in Hb by exact Hq.
           specialize (Hrows row Hrow).
           assert (Ha : Rabs (dot row (map (fun x => x / norm q) q)) <= 1) by lra.
           pose proof (Rle_abs (dot row (map (fun x => x / norm q) q))).
           pose proof (Rle_abs (- dot row (map (fun x => x / norm q) q))).
           rewrite Rabs_Ropp in *. lra.
        -- intros _; rewrite length_map; exact Hlen.
Qed.

End EmbeddingsExtras.

(* ------------------------------------------------------------------ *)
(** ** Saving and loading records *)

Module RecordsSaveFacts.

Import Py PyFacts RecordsIO RecordsIOFacts RecordsSave.

Lemma list_ascii_of_string_app s t :
  list_ascii_of_string (s ++ t) = (list_ascii_of_string s ++ list_ascii_of_string t)%list.
Proof. induction s as [|c s IH]; cbn; [reflexivity|]. rewrite IH. reflexivity. Qed.

Lemma append_inj_r s1 s2 t : (s1 ++ t)%string = (s2 ++ t)%string -> s1 = s2.
Proof.
  intros H. apply (f_equal list_ascii_of_string) in H.
  rewrite !list_ascii_of_string_app in H. apply app_inv_tail in H.
  rewrite <- (string_of_list_ascii_of_string s1), <- (string_of_list_ascii_of_string s2), H.
  reflexivity.
Qed.

Lemma record_path_inj dir i1 i2 : record_path dir i1 = record_path dir i2 -> i1 = i2.
Proof.
  unfold record_path. induction dir as [|c dir IH]; cbn; intros H.
  - injection H as H. apply append_inj_r in H. exact H.
  - injection H as H. apply IH, H.
Qed.

Section Saves.

Context {A : Type}.
Variable rec_id : A -> string.
Variable dump : A -> list contents.

Definition saved (records : dict A) (only_ids : option (list string)) : list A :=
  match only_ids with
  | None => map snd records
  | Some ids => flat_map (fun u => match get u records with Some r => [r] | None => [] end) ids
  end.

Lemma save_records_flat records dir only_ids :
  save_records rec_id dump records dir only_ids =
  flat_map (fun r => save_record rec_id dump r dir) (saved records only_ids).
Proof.
  destruct only_ids as [ids|]; cbn.
  - induction ids as [|u ids IH]; cbn; [reflexivity|].
    rewrite flat_map_app, IH. destruct (get u records); cbn; try rewrite app_nil_r; reflexivity.
  - induction records as [|[u r] records IH]; cbn; [reflexivity|]. rewrite IH. reflexivity.
Qed.

Lemma fold_saves dir rs s0 :
  let s := fold_left step (flat_map (fun r => save_record rec_id dump r dir) rs) s0 in
  (forall q, (forall r, In r rs -> q <> record_path dir (rec_id r)) -> get q s = get q s0) /\
  (NoDup (map rec_id rs) -> forall r, In r rs ->
     get (record_path dir (rec_id r)) s = Some (List.concat (dump r))).
Proof.
  revert s0; induction rs as [|r0 rs IH]; intros s0; cbn zeta.
  - split; [reflexivity | intros _ r []].
  - cbn [flat_map]. rewrite fold_left_app.
    destruct (with_open_w_in_place (record_path dir (rec_id r0)) (dump r0) s0)
      as [_ [_ [W1 W2]]].
    fold (save_record_ops dir (rec_id r0) (dump r0)) in W1, W2.
    fold (save_record rec_id dump r0 dir) in W1, W2.
    destruct (IH (fold_left step (save_record rec_id dump r0 dir) s0)) as [I1 I2].
    split.
    + intros q Hq. rewrite I1.
      * apply W2. apply Hq. left. reflexivity.
      * intros r Hr. apply Hq. right. exact Hr.
    + intros Hnd r Hr. inversion Hnd as [|? ? Hn Hnd']; subst.
      destruct Hr as [<-|Hr].
      * rewrite I1; [exact W1|].
        intros r' Hr' E. apply record_path_inj in E. apply Hn. rewrite E. apply in_map, Hr'.
      * apply I2; assumption.
Qed.

End Saves.

End RecordsSaveFacts.

Module RecordsSaveExtras.

Import Py RecordsIO RecordsSave RecordsSaveFacts.

(** [save_records] writes only the files of the records it saves (every
    record, or those whose key is in [only_ids]), each named after the
    record's own [id]: every other path keeps its contents. When the saved
    records have distinct ids, each saved record's file then holds exactly
    its JSON dump, and [load_record] of that id returns what parsing that
    dump gives. *)
Theorem save_records_then_load {A} (rec_id : A -> string) (dump : A -> list contents)
  (parse : contents -> option A) records dir only_ids s0 :
  let s := fold_left step (save_records rec_id dump records dir only_ids) s0 in
  (forall q, (forall r, In r (saved records only_ids) -> q <> record_path dir (rec_id r)) ->
     get q s = get q s0) /\
  (NoDup (map rec_id (saved records only_ids)) -> forall r, In r (saved records only_ids) ->
     get (record_path dir (rec_id r)) s = Some (List.concat (dump r)) /\
     load_record parse (rec_id r) dir s = parse (List.concat (dump r))).
Proof.
  cbv zeta. rewrite save_records_flat.
  destruct (fold_saves rec_id dump dir (saved records only_ids) s0) as [F1 F2].
  split; [exact F1|].
  intros Hnd r Hr. specialize (F2 Hnd r Hr). split; [exact F2|].
  unfold load_record. rewrite F2. reflexivity.
Qed.

End RecordsSaveExtras.
